(** * sigsolve: the board of a hexagonal tile-removal puzzle

    A shallow embedding of [src/board.py]: the [Tile] class (neighbor ring,
    tri-state legality cache, predictive legality scan), the [Tileset] class
    (grid construction, adjacency wiring, element catalog, aggregate
    queries), and the properties of them that the specification states.

    Tiles are Python objects compared by identity; here a tile is named by
    its index in [Tileset.tiles] and the board owns the records.  Python
    integers are [Z]; list indexing follows Python (negative indices count
    from the end, anything else out of range raises, modelled by [None]). *)

From stdpp Require Import gmap strings list fin_maps.
From Stdlib Require Import ZArith Lia.

Open Scope Z_scope.

(** ** Python primitives used by the source *)

Module Py.

(** [range(a, b)] *)
Definition range (a b : Z) : list Z :=
  (λ i : nat, a + Z.of_nat i) <$> seq 0 (Z.to_nat (b - a)).

(** [l[i]]: [None] stands for IndexError. *)
Definition getitem {A} (l : list A) (i : Z) : option A :=
  let n := Z.of_nat (length l) in
  if decide (0 ≤ i < n) then l !! Z.to_nat i
  else if decide (- n ≤ i < 0) then l !! Z.to_nat (n + i)
  else None.

(** [l[i] = v]: [None] stands for IndexError. *)
Definition setitem {A} (l : list A) (i : Z) (v : A) : option (list A) :=
  let n := Z.of_nat (length l) in
  if decide (0 ≤ i < n) then Some (<[Z.to_nat i := v]> l)
  else if decide (- n ≤ i < 0) then Some (<[Z.to_nat (n + i) := v]> l)
  else None.

(** [enumerate(l)] *)
Definition enumerate {A} (l : list A) : list (Z * A) :=
  imap (λ i a, (Z.of_nat i, a)) l.

(** [list(itertools.repeat(x, n))]: a non-positive count gives []. *)
Definition repeat {A} (x : A) (n : Z) : list A := replicate (Z.to_nat n) x.

End Py.

(** ** Tiles *)

(** Element tokens are Python strings ('water', 'mercury', ...). *)
Abbreviation token := string.

(** Python truthiness of an element value: [None] and the empty string are
    falsy. *)
Definition truthy (e : option token) : bool :=
  match e with
  | None => false
  | Some EmptyString => false
  | Some (String _ _) => true
  end.

(** The fields of [Tile] that the board logic reads or writes.  The pixel
    placement ([origin], [rect], [sample_rect]) comes from the geometry
    module and is not used by any operation below. *)
Record Tile := mkTile {
  xy : Z * Z;
  neighbors : list (option nat);
  _element : option token;
  _legal : option bool;
}.

(** [Tile.__init__(x, y)] *)
Definition Tile_init (x y : Z) : Tile :=
  {| xy := (x, y); neighbors := []; _element := None; _legal := None |}.

Definition REQUIRED_ADJACENT : nat := 3.

Record Tileset := mkTileset {
  rows : list (list (option nat));
  tiles : list Tile;
  catalog : gmap string (gset nat);
}.

(** Reading a field of the tile behind a handle. *)
Definition element (ts : Tileset) (t : nat) : option token :=
  tl ← tiles ts !! t; _element tl.

Definition legal_cache (ts : Tileset) (t : nat) : option bool :=
  tl ← tiles ts !! t; _legal tl.

Definition ring (ts : Tileset) (t : nat) : list (option nat) :=
  from_option neighbors [] (tiles ts !! t).

Definition set_legal (v : option bool) (tl : Tile) : Tile :=
  {| xy := xy tl; neighbors := neighbors tl; _element := _element tl; _legal := v |}.

Definition set_element (v : option token) (tl : Tile) : Tile :=
  {| xy := xy tl; neighbors := neighbors tl; _element := v; _legal := _legal tl |}.

Definition set_neighbors (ns : list (option nat)) (tl : Tile) : Tile :=
  {| xy := xy tl; neighbors := ns; _element := _element tl; _legal := _legal tl |}.

Definition with_tiles (ts : Tileset) (tls : list Tile) : Tileset :=
  {| rows := rows ts; tiles := tls; catalog := catalog ts |}.

(** [Tile.real_neighbors] *)
Definition real_neighbors (ts : Tileset) (t : nat) : list nat :=
  omap id (ring ts t).

(** [Tile.nonempty_neighbors] *)
Definition nonempty_neighbors (ts : Tileset) (t : nat) : list nat :=
  filter (λ n, element ts n ≠ None) (real_neighbors ts t).

(** [Tile.expire_legality(onlyif)] *)
Definition expire_legality (onlyif : option bool) (tl : Tile) : Tile :=
  match onlyif with
  | Some b => if decide (_legal tl = Some b) then set_legal None tl else tl
  | None => set_legal None tl
  end.

(** *** The scan of [predict_legality] *)

(** The [removed] argument is [None] or a container, given by its members. *)

(** [not removed] *)
Definition not_removed (removed : option (list (option nat))) : bool :=
  match removed with
  | None | Some [] => true
  | Some (_ :: _) => false
  end.

(** The set scanned after [if removed is None: removed = set()]. *)
Definition removed_set (removed : option (list (option nat))) : list (option nat) :=
  default [] removed.

(** The body of the [for neighbor in self.neighbors] loop of [_gen] up to
    [if cache_count:]: the (actual, predicted) pair for one ring slot, and
    [cache_count] after it. *)
Definition gen_slot (ts : Tileset) (removed : list (option nat))
    (neighbor : option nat) (cache_count : nat) : (bool * bool) * nat :=
  match neighbor with
  | None => ((true, true), cache_count)
  | Some n =>
      match element ts n with
      | None => ((true, true), cache_count)
      | Some _ =>
          if decide (Some n ∈ removed) then ((false, true), cache_count)
          else ((false, false), O)
      end
  end.

(** One iteration of that loop: the state is (pairs yielded so far, cache,
    cache_count). *)
Definition gen_step (ts : Tileset) (removed : list (option nat))
    (st : list (bool * bool) * list (bool * bool) * nat) (neighbor : option nat)
    : list (bool * bool) * list (bool * bool) * nat :=
  let '(out, cache, cache_count) := st in
  let '(result, cache_count) := gen_slot ts removed neighbor cache_count in
  match cache_count with
  | O => (out ++ [result], cache, O)
  | S c => (out ++ [result], cache ++ [result], c)
  end.

Definition gen_loop (ts : Tileset) (removed : list (option nat))
    (nbrs : list (option nat)) : list (bool * bool) * list (bool * bool) * nat :=
  foldl (gen_step ts removed) ([], [], (REQUIRED_ADJACENT - 1)%nat) nbrs.

(** The pairs yielded by the first pass over the ring. *)
Definition gen_produced ts removed nbrs : list (bool * bool) :=
  (gen_loop ts removed nbrs).1.1.

(** The pairs captured for replay ([cache] at [yield from cache]). *)
Definition gen_cache ts removed nbrs : list (bool * bool) :=
  (gen_loop ts removed nbrs).1.2.

(** Everything [_gen()] yields. *)
Definition _gen ts removed nbrs : list (bool * bool) :=
  gen_produced ts removed nbrs ++ gen_cache ts removed nbrs.

(** The consumer loop of [predict_legality].  [inl result]: the loop ran to
    its end; [inr tt]: the early [return True] was taken. *)
Fixpoint scan (pairs : list (bool * bool)) (actual_run predicted_run : nat)
    (result : bool) : bool + unit :=
  match pairs with
  | [] => inl result
  | (actual, predicted) :: rest =>
      let actual_run := if actual then S actual_run else O in
      if actual && bool_decide (REQUIRED_ADJACENT ≤ actual_run)%nat then inr tt
      else
        let predicted_run := if predicted then S predicted_run else O in
        let result :=
          if predicted && bool_decide (REQUIRED_ADJACENT ≤ predicted_run)%nat
          then true else result in
        scan rest actual_run predicted_run result
  end.

(** [Tile.predict_legality(removed)] on the record of the tile: the new
    value of [self._legal] and the value returned. *)
Definition predict (ts : Tileset) (self : Tile)
    (removed : option (list (option nat))) : option bool * bool :=
  match _legal self with
  | Some true => (Some true, true)
  | cached =>
      if not_removed removed && bool_decide (cached = Some false)
      then (cached, false)
      else
        match scan (_gen ts (removed_set removed) (neighbors self)) 0 0 false with
        | inr _ => (Some true, true)
        | inl result => (Some false, result)
        end
  end.

(** [t.predict_legality(removed)] for the tile with handle [t]. *)
Definition predict_legality (ts : Tileset) (t : nat)
    (removed : option (list (option nat))) : Tileset * bool :=
  match tiles ts !! t with
  | None => (ts, false)
  | Some self =>
      let '(c, r) := predict ts self removed in
      (with_tiles ts (<[t := set_legal c self]> (tiles ts)), r)
  end.

(** [t.legal] *)
Definition legal (ts : Tileset) (t : nat) : Tileset * bool :=
  predict_legality ts t None.

(** *** Impact queries *)

(** [Tile.affected_neighbors] *)
Definition affected_neighbors_step (c : nat)
    (st : Tileset * list nat) (neighbor : nat) : Tileset * list nat :=
  let '(ts, result) := st in
  let '(ts, p) := predict_legality ts neighbor (Some [Some c]) in
  if p then
    let '(ts, l) := legal ts neighbor in
    if l then (ts, result) else (ts, result ++ [neighbor])
  else (ts, result).

Definition affected_neighbors (ts : Tileset) (c : nat) : Tileset * list nat :=
  foldl (affected_neighbors_step c) (ts, []) (nonempty_neighbors ts c).

(** [Tile.all_neighbors(tiles)].  The argument is iterated twice, by the
    loop and by [difference_update]; [again] is what the second iteration
    yields: the same members for a container, nothing for a generator. *)
Definition all_neighbors (ts : Tileset) (tiles again : list (option nat)) : gset nat :=
  let neighbors : gset nat :=
    foldl (λ (acc : gset nat) tile,
             match tile with
             | None => acc
             | Some t => acc ∪ list_to_set (real_neighbors ts t)
             end) ∅ tiles in
  neighbors ∖ list_to_set (omap id again).

(** The loop of [Tile.affected_tiles] over the candidates, in the order the
    set yields them. *)
Definition affected_tiles_step (tiles : list (option nat))
    (st : Tileset * gset nat) (tile : nat) : Tileset * gset nat :=
  let '(ts, affected) := st in
  match element ts tile with
  | None => (ts, affected)
  | Some _ =>
      let '(ts, p) := predict_legality ts tile (Some tiles) in
      if p then
        let '(ts, l) := legal ts tile in
        if l then (ts, affected) else (ts, affected ∪ {[tile]})
      else (ts, affected)
  end.

Definition affected_tiles_over (ts : Tileset) (tiles : list (option nat))
    (candidates : list nat) : Tileset * gset nat :=
  foldl (affected_tiles_step tiles) (ts, ∅) candidates.

(** [tile is not None and tile.element is not None] *)
Definition is_nonempty (ts : Tileset) (tile : option nat) : bool :=
  match tile with
  | Some t => bool_decide (element ts t ≠ None)
  | None => false
  end.

(** [Tile.affected_tiles(tiles)]: [all_neighbors] is handed a generator
    expression, so its [difference_update] sees it exhausted. *)
Definition affected_tiles (ts : Tileset) (tiles : list (option nat)) : Tileset * gset nat :=
  let nonempty := filter (λ tile, Is_true (is_nonempty ts tile)) tiles in
  affected_tiles_over ts tiles (elements (all_neighbors ts nonempty [])).

(** ** The board *)

Fixpoint foldM {A B} (f : B → A → option B) (b : B) (l : list A) : option B :=
  match l with
  | [] => Some b
  | a :: l => b' ← f b a; foldM f b' l
  end.

(** [self.catalog[previous].discard(tile)]: a token missing from the
    catalog reads as [tuple()], which has no [discard] ([None] here). *)
Definition catalog_discard (cat : gmap string (gset nat)) (previous : token)
    (tile : nat) : option (gmap string (gset nat)) :=
  s ← cat !! previous; Some (<[previous := s ∖ {[tile]}]> cat).

(** [self.catalog.setdefault(current, set()).add(tile)] *)
Definition catalog_add (cat : gmap string (gset nat)) (current : token)
    (tile : nat) : gmap string (gset nat) :=
  <[current := default ∅ (cat !! current) ∪ {[tile]}]> cat.

(** [self.catalog[element]] through [CatalogDictionary.__missing__] *)
Definition catalog_get (ts : Tileset) (e : token) : gset nat :=
  default ∅ (catalog ts !! e).

(** [Tileset.count] *)
Definition count (ts : Tileset) (e : token) : nat := size (catalog_get ts e).

(** [Tileset.element_changed(tile, previous, current)] *)
Definition element_changed (ts : Tileset) (tile : nat)
    (previous current : option token) : option Tileset :=
  if decide (previous = current) then Some ts
  else
    cat ← match previous with
          | Some p => catalog_discard (catalog ts) p tile
          | None => Some (catalog ts)
          end;
    let cat := match current with
               | Some c => catalog_add cat c tile
               | None => cat
               end in
    let ts := {| rows := rows ts; tiles := tiles ts; catalog := cat |} in
    if decide ((previous = None) ↔ (current = None)) then Some ts
    else
      Some (with_tiles ts
              (foldl (λ tls neighbor,
                        alter (expire_legality (Some (bool_decide (previous = None))))
                              neighbor tls)
                     (tiles ts) (real_neighbors ts tile))).

(** The [element] setter of the tile with handle [t]. *)
Definition set_tile_element (ts : Tileset) (t : nat) (value : option token)
    : option Tileset :=
  match tiles ts !! t with
  | None => Some ts
  | Some self =>
      if decide (value = _element self) then Some ts
      else
        let previous := _element self in
        element_changed (with_tiles ts (<[t := set_element value self]> (tiles ts)))
                        t previous value
  end.

(** [Tileset.legal_tiles] *)
Definition legal_tiles (ts : Tileset) : Tileset * gset nat :=
  foldl (λ (st : Tileset * gset nat) t,
           let '(ts, acc) := st in
           let '(ts, l) := legal ts t in
           if l && bool_decide (element ts t ≠ None) then (ts, acc ∪ {[t]})
           else (ts, acc))
        (ts, ∅) (seq 0 (length (tiles ts))).

(** [Tileset.bitmap] *)
Definition bitmap (ts : Tileset) : Z :=
  foldl (λ result tile,
           let result := Z.shiftl result 1 in
           if truthy (_element tile) then Z.lor result 1 else result)
        0 (tiles ts).

(** *** Construction *)

(** The body of [for x in range(start, start+count)]: a new tile is
    appended to [self.tiles] and stored at [row[x+1]]. *)
Definition fill_cell (hoffset y : Z) (st : list Tile * list (option nat)) (x : Z)
    : option (list Tile * list (option nat)) :=
  let '(tls, row) := st in
  let t := length tls in
  let tls := tls ++ [Tile_init (x - hoffset) y] in
  row ← Py.setitem row (x + 1) (Some t);
  Some (tls, row).

(** The body of [for y in range(0, diameter)]. *)
Definition build_row (radius : Z) (st : list (list (option nat)) * list Tile) (y : Z)
    : option (list (list (option nat)) * list Tile) :=
  let '(rws, tls) := st in
  let diameter := 2 * radius - 1 in
  let blank_row : list (option nat) := Py.repeat None (diameter + 2) in
  let hoffset := (radius - 1) `div` 2 in
  let count := diameter - Z.abs (radius - (y + 1)) in
  let start := (diameter - count) `div` 2 in
  '(tls, row) ← foldM (fill_cell hoffset y) (tls, blank_row)
                      (Py.range start (start + count));
  Some (rws ++ [row], tls).

(** The body of [for x, tile in enumerate(row)] of the adjacency pass. *)
Definition wire_cell (row above below : list (option nat)) (altrow : Z)
    (tls : list Tile) (xt : Z * option nat) : option (list Tile) :=
  let '(x, tile) := xt in
  match tile with
  | None => Some tls
  | Some t =>
      left ← Py.getitem row (x - 1);
      upper_left ← Py.getitem above (x + altrow);
      upper_right ← Py.getitem above (x + altrow + 1);
      right ← Py.getitem row (x + 1);
      lower_right ← Py.getitem below (x + altrow + 1);
      lower_left ← Py.getitem below (x + altrow);
      Some (alter (set_neighbors
                     [left; upper_left; upper_right; right; lower_right; lower_left])
                  t tls)
  end.

(** The body of [for y, row in enumerate(self.rows)]. *)
Definition wire_row (diameter : Z) (rws : list (list (option nat)))
    (tls : list Tile) (yr : Z * list (option nat)) : option (list Tile) :=
  let '(y, row) := yr in
  let altrow := - ((y + 1) `mod` 2) in
  if decide (y = 0 ∨ y > diameter) then Some tls
  else
    above ← Py.getitem rws (y - 1);
    below ← Py.getitem rws (y + 1);
    foldM (wire_cell row above below altrow) tls (Py.enumerate row).

(** [Tileset.__init__], for a geometry of the given [radius].  [None]: the
    constructor raised. *)
Definition Tileset_init (radius : Z) : option Tileset :=
  let diameter := 2 * radius - 1 in
  let blank_row : list (option nat) := Py.repeat None (diameter + 2) in
  '(rws, tls) ← foldM (build_row radius) ([blank_row], []) (Py.range 0 diameter);
  let rws := rws ++ [blank_row] in
  tls ← foldM (wire_row diameter rws) tls (Py.enumerate rws);
  Some {| rows := rws; tiles := tls; catalog := ∅ |}.

(** ** Operations a caller can perform, and the boards they lead to *)

(** One call on the mutation or query surface.  A Python set is iterated in
    an arbitrary order, so [affected_tiles] may visit its candidates in any
    order. *)
Inductive step : Tileset → Tileset → Prop :=
  | step_set_element ts t value ts' :
      set_tile_element ts t value = Some ts' → step ts ts'
  | step_predict_legality ts t removed :
      step ts (predict_legality ts t removed).1
  | step_affected_neighbors ts c :
      step ts (affected_neighbors ts c).1
  | step_affected_tiles ts tiles candidates :
      candidates ≡ₚ elements (all_neighbors ts
                                (filter (λ tile, Is_true (is_nonempty ts tile)) tiles) []) →
      step ts (affected_tiles_over ts tiles candidates).1
  | step_legal_tiles ts :
      step ts (legal_tiles ts).1.

(** The boards reachable from [Tileset(radius)]. *)
Inductive reachable (radius : Z) : Tileset → Prop :=
  | reachable_init ts :
      Tileset_init radius = Some ts → reachable radius ts
  | reachable_step ts ts' :
      reachable radius ts → step ts ts' → reachable radius ts'.

(** ** The properties, stated independently of the implementation *)

(** A ring slot counts toward a run when it is off the board or empty. *)
Definition passable (ts : Tileset) (neighbor : option nat) : bool :=
  match neighbor with
  | None => true
  | Some n => bool_decide (element ts n = None)
  end.

(** A circular run of [k] consecutive [true] slots. *)
Definition has_run (k : nat) (slots : list bool) : bool :=
  existsb (λ start,
             forallb (λ j, nth ((start + j) `mod` length slots)%nat slots false)
                     (seq 0 k))
          (seq 0 (length slots)).

(** Legality recomputed from scratch from the current elements. *)
Definition legal_spec (ts : Tileset) (t : nat) : bool :=
  has_run REQUIRED_ADJACENT (passable ts <$> ring ts t).

Fixpoint take_while {A} (p : A → bool) (l : list A) : list A :=
  match l with
  | [] => []
  | a :: l => if p a then a :: take_while p l else []
  end.

(** The adjacency is symmetric: [a] sits in slot [i] of [b]'s ring exactly
    when [b] sits in the opposite slot of [a]'s ring. *)
Definition symmetric_wiring (ts : Tileset) : Prop :=
  ∀ a b i, (i < 6)%nat →
    ring ts b !! i = Some (Some a) ↔ ring ts a !! ((i + 3) `mod` 6)%nat = Some (Some b).

(** The catalog agrees with the elements of the tiles. *)
Definition catalog_consistent (ts : Tileset) : Prop :=
  ∀ (e : token) (t : nat), t ∈ catalog_get ts e ↔ element ts t = Some e.

(** The pair [_gen] computes for one ring slot. *)
Definition classify (ts : Tileset) (removed : list (option nat))
    (neighbor : option nat) : bool * bool :=
  (gen_slot ts removed neighbor O).1.

(** ** Example boards *)

Definition set_elements (ts : Tileset) (values : list (nat * option token))
    : option Tileset :=
  foldM (λ ts tv, set_tile_element ts tv.1 tv.2) ts values.

(** The radius-2 board (center tile 3, ring 2 0 1 4 6 5 clockwise from the
    left) with a token on every ring tile. *)
Definition ring_full_board : option Tileset :=
  ts ← Tileset_init 2;
  set_elements ts [(0, Some "A"); (1, Some "A"); (2, Some "A");
                   (4, Some "A"); (5, Some "A"); (6, Some "A")]%nat.

(** ** Invariants of the construction *)

(** A tile as [Tile.__init__] leaves it. *)
Definition fresh_tile (tl : Tile) : Prop :=
  neighbors tl = [] ∧ _element tl = None ∧ _legal tl = None.

(** The row being filled, before [x = a] is visited: it holds the handles
    [n0 ..< length tls], each once, at columns [1 .. a]. *)
Record row_ok (d : Z) (n0 : nat) (a : Z) (tls : list Tile)
    (row : list (option nat)) : Prop := {
  row_len : length row = Z.to_nat (d + 2);
  row_ids : ∀ X c, row !! X = Some (Some c) →
              (n0 ≤ c < length tls)%nat ∧ 1 ≤ Z.of_nat X ≤ a;
  row_inj : ∀ X X' c, row !! X = Some (Some c) → row !! X' = Some (Some c) → X = X';
  row_cover : ∀ c, (n0 ≤ c < length tls)%nat → ∃ X, row !! X = Some (Some c);
}.

(** The rows built so far hold every handle below [n] exactly once, away
    from the padding. *)
Record grid_ok (d : Z) (n : nat) (rws : list (list (option nat))) : Prop := {
  grid_width : ∀ Y row, rws !! Y = Some row → length row = Z.to_nat (d + 2);
  grid_ids : ∀ Y X row c, rws !! Y = Some row → row !! X = Some (Some c) →
               (c < n)%nat ∧ 1 ≤ Z.of_nat Y ≤ d ∧ 1 ≤ Z.of_nat X ≤ d;
  grid_inj : ∀ Y X row Y' X' row' c,
               rws !! Y = Some row → row !! X = Some (Some c) →
               rws !! Y' = Some row' → row' !! X' = Some (Some c) →
               Y = Y' ∧ X = X';
  grid_cover : ∀ c, (c < n)%nat →
                 ∃ Y X row, rws !! Y = Some row ∧ row !! X = Some (Some c);
}.

(** The cell at row [y], column [x] of the padded grid. *)
Definition look (rws : list (list (option nat))) (y x : Z) : option nat :=
  if decide (0 ≤ y ∧ 0 ≤ x)
  then row ← rws !! Z.to_nat y; mjoin (row !! Z.to_nat x)
  else None.

(** The column offset of the rows above and below row [y]. *)
Definition altrow (y : Z) : Z := - ((y + 1) `mod` 2).

(** The ring of the cell at ([y], [x]), clockwise from the left. *)
Definition ring_at (rws : list (list (option nat))) (y x : Z) : list (option nat) :=
  [look rws y (x - 1);
   look rws (y - 1) (x + altrow y);
   look rws (y - 1) (x + altrow y + 1);
   look rws y (x + 1);
   look rws (y + 1) (x + altrow y + 1);
   look rws (y + 1) (x + altrow y)].

(** [tls'] is [tls] with neighbor rings assigned as [S] says: a ring that
    changed was assigned, and a tile with an assignment holds one. *)
Definition wired (S : nat → list (option nat) → Prop) (tls tls' : list Tile) : Prop :=
  length tls' = length tls ∧
  ∀ t tl, tls !! t = Some tl →
    ∃ tl', tls' !! t = Some tl' ∧
      xy tl' = xy tl ∧ _element tl' = _element tl ∧ _legal tl' = _legal tl ∧
      (neighbors tl' = neighbors tl ∨ S t (neighbors tl')) ∧
      ((∃ ns, S t ns) → S t (neighbors tl')).

(** What construction establishes and no operation changes: the grid holds
    every tile once, and the ring of a tile is read off the grid at the
    position of the tile. *)
Definition static_ok (ts : Tileset) : Prop :=
  ∃ d, grid_ok d (length (tiles ts)) (rows ts) ∧
    ∀ t tl, tiles ts !! t = Some tl →
      ∃ y x, look (rows ts) y x = Some t ∧ neighbors tl = ring_at (rows ts) y x.

(** ** The scan seen slot by slot *)

(** The three kinds of ring slot [_gen] tells apart. *)
Inductive slot := Open | Hypothetical | Blocked.

Definition slot_pair (s : slot) : bool * bool :=
  match s with
  | Open => (true, true)
  | Hypothetical => (false, true)
  | Blocked => (false, false)
  end.

Definition slot_of (ts : Tileset) (removed : list (option nat))
    (neighbor : option nat) : slot :=
  match neighbor with
  | None => Open
  | Some n =>
      match element ts n with
      | None => Open
      | Some _ => if decide (Some n ∈ removed) then Hypothetical else Blocked
      end
  end.

(** A first pass followed by the replay of its captured prefix. *)
Definition replayed (pairs : list (bool * bool)) : list (bool * bool) :=
  pairs ++ take (REQUIRED_ADJACENT - 1) (take_while snd pairs).

(** ** Invariants of the operations *)

(** A cached answer is the true one. *)
Definition cache_sound (ts : Tileset) : Prop :=
  ∀ t b, legal_cache ts t = Some b → b = legal_spec ts t.

(** [ts'] is [ts] with some caches refreshed to the true answer. *)
Definition cache_update (ts ts' : Tileset) : Prop :=
  rows ts' = rows ts ∧ catalog ts' = catalog ts ∧
  length (tiles ts') = length (tiles ts) ∧
  ∀ t, element ts' t = element ts t ∧ ring ts' t = ring ts t ∧
       (legal_cache ts' t = legal_cache ts t ∨
        legal_cache ts' t = Some (legal_spec ts t)).

Definition board_inv (ts : Tileset) : Prop :=
  static_ok ts ∧ cache_sound ts ∧ catalog_consistent ts.

(** The tile [u] after the setter of [t] replaced [previous] by a
    different [value]: the cache of a neighbor of [t] is expired when it
    was Legal and [t] gained a token, or Illegal and [t] lost its token. *)
Definition expired (ts : Tileset) (t : nat) (previous value : option token)
    (u : nat) (tl : Tile) : Tile :=
  if decide (u ∈ real_neighbors ts t ∧
             ((previous = None ∧ _legal tl = Some true) ∨
              (value = None ∧ _legal tl = Some false)))
  then set_legal None tl else tl.

(** ** The impact queries, tile by tile *)

(** What both impact queries do with one candidate: predict under the
    removal, then read [legal] if the prediction is true; the candidate is
    kept when it is predicted legal and not legal. *)
Definition probe (ts : Tileset) (removed : list (option nat)) (n : nat)
    : Tileset * bool :=
  let '(ts, p) := predict_legality ts n (Some removed) in
  if p then let '(ts, l) := legal ts n in (ts, negb l) else (ts, false).

(** The answer of [probe], read off the board without running it. *)
Definition would_become_legal (ts : Tileset) (removed : list (option nat))
    (n : nat) : bool :=
  match tiles ts !! n with
  | Some self =>
      negb (bool_decide (_legal self = Some true)) &&
      match scan (_gen ts removed (neighbors self)) 0 0 false with
      | inl true => true
      | _ => false
      end
  | None => false
  end.

(** ** The remaining queries of [Tileset] *)

Definition CARDINALS : list token := ["water"; "earth"; "fire"; "air"].

Definition METALS : list token :=
  ["mercury"; "tin"; "iron"; "copper"; "silver"; "gold"].

(** [Tileset.cardinal_counts]: a dict from each cardinal to its count. *)
Definition cardinal_counts (ts : Tileset) : gmap string nat :=
  list_to_map ((λ e, (e, count ts e)) <$> CARDINALS).

(** [list(s)[0]] for a set [s]: the first member in iteration order;
    [None] stands for IndexError. *)
Definition first_of (s : gset nat) : option nat := head (elements s).

(** [Tileset.remaining_metals]: for each metal, in the order of [METALS],
    whose catalog entry is nonempty, the first tile of the entry. *)
Definition remaining_metals (ts : Tileset) : option (list nat) :=
  mapM (λ e, first_of (catalog_get ts e))
       (filter (λ e, catalog_get ts e ≠ ∅) METALS).

(** ** Predicted legality, stated independently of the implementation *)

(** A ring slot counts toward the predicted run when it is off the board,
    empty, or holds a tile of [removed]. *)
Definition passable_without (ts : Tileset) (removed : list (option nat))
    (neighbor : option nat) : bool :=
  match neighbor with
  | None => true
  | Some n => bool_decide (element ts n = None) || bool_decide (Some n ∈ removed)
  end.

(** Legality recomputed from scratch with the tiles of [removed] taken as
    empty. *)
Definition predicted_spec (ts : Tileset) (removed : list (option nat)) (t : nat) : bool :=
  has_run REQUIRED_ADJACENT (passable_without ts removed <$> ring ts t).

(** Emptying the tiles of [l], one setter call each. *)
Definition remove_tiles (ts : Tileset) (l : list nat) : option Tileset :=
  set_elements ts ((λ t, (t, None)) <$> l).

(** The bit of a tile in [bitmap]. *)
Definition occupied_bit (tl : Tile) : bool := truthy (_element tl).

(** The grid offset (rows, columns) of ring slot [i], for column shift [a]. *)
Definition slot_offset (a : Z) (i : nat) : Z * Z :=
  match i with
  | 0%nat => (0, -1)
  | 1%nat => (-1, a)
  | 2%nat => (-1, a + 1)
  | 3%nat => (0, 1)
  | 4%nat => (1, a + 1)
  | _ => (1, a)
  end.

(** The number of tiles of row [y], and of the rows before row [k]. *)
Definition row_count (radius y : Z) : Z :=
  (2 * radius - 1) - Z.abs (radius - (y + 1)).

Fixpoint taper_sum (radius : Z) (k : nat) : Z :=
  match k with
  | O => 0
  | S k => taper_sum radius k + row_count radius (Z.of_nat k)
  end.

(** * Proofs *)

(** ** The generator of [predict_legality] *)

Lemma gen_slot_pair ts removed nb cc :
  (gen_slot ts removed nb cc).1 = classify ts removed nb.
Proof.
  unfold classify, gen_slot.
  destruct nb as [n|]; [|done]. destruct (element ts n); [|done].
  by case_decide.
Qed.

Lemma gen_slot_count ts removed nb cc :
  (gen_slot ts removed nb cc).2 =
    if (classify ts removed nb).2 then cc else O.
Proof.
  unfold classify, gen_slot.
  destruct nb as [n|]; [|done]. destruct (element ts n); [|done].
  by case_decide.
Qed.

Lemma gen_loop_from ts removed nbrs out cache cc :
  ∃ cc',
    foldl (gen_step ts removed) (out, cache, cc) nbrs =
      (out ++ (classify ts removed <$> nbrs),
       cache ++ take cc (take_while snd (classify ts removed <$> nbrs)),
       cc').
Proof.
  revert out cache cc.
  induction nbrs as [|nb nbrs IH]; intros out cache cc; simpl.
  - exists cc. by rewrite take_nil, !app_nil_r.
  - pose proof (gen_slot_pair ts removed nb cc) as Hp.
    pose proof (gen_slot_count ts removed nb cc) as Hc.
    destruct (gen_slot ts removed nb cc) as [result cc1]; simpl in Hp, Hc.
    subst result.
    destruct (classify ts removed nb) as [a p] eqn:Hcl; simpl in *.
    destruct cc1 as [|c].
    + destruct (IH (out ++ [(a, p)]) cache O) as [cc' ->].
      exists cc'. rewrite <- app_assoc.
      destruct p; [subst cc|]; simpl; by rewrite ?take_0, ?take_nil.
    + destruct p; [subst cc|done].
      destruct (IH (out ++ [(a, true)]) (cache ++ [(a, true)]) c) as [cc' ->].
      exists cc'. by rewrite <- !app_assoc.
Qed.

Lemma gen_produced_classify ts removed nbrs :
  gen_produced ts removed nbrs = classify ts removed <$> nbrs.
Proof.
  unfold gen_produced, gen_loop.
  by destruct (gen_loop_from ts removed nbrs [] [] (REQUIRED_ADJACENT - 1)) as [cc' ->].
Qed.

Lemma gen_cache_take ts removed nbrs :
  gen_cache ts removed nbrs =
    take (REQUIRED_ADJACENT - 1) (take_while snd (classify ts removed <$> nbrs)).
Proof.
  unfold gen_cache, gen_loop.
  by destruct (gen_loop_from ts removed nbrs [] [] (REQUIRED_ADJACENT - 1)) as [cc' ->].
Qed.

Lemma take_while_prefix {A} (p : A → bool) (l : list A) :
  take_while p l `prefix_of` l.
Proof.
  induction l as [|a l IH]; simpl; [done|].
  destruct (p a); [by apply prefix_cons|apply prefix_nil].
Qed.

(** C3, as the code has it: the pairs replayed after the first pass are the
    first K-1 pairs of the longest prefix of the produced pairs whose
    predicted flag is true.  Capture stops at the first (false, false)
    pair, a nonempty neighbor outside [removed]; a (false, true) pair, for a
    nonempty neighbor in [removed], is captured and replayed like any
    other. *)
Theorem gen_cache_is_predicted_prefix ts removed nbrs :
  gen_produced ts removed nbrs = classify ts removed <$> nbrs ∧
  gen_cache ts removed nbrs =
    take (REQUIRED_ADJACENT - 1) (take_while snd (gen_produced ts removed nbrs)) ∧
  gen_cache ts removed nbrs `prefix_of` gen_produced ts removed nbrs ∧
  (length (gen_cache ts removed nbrs) ≤ REQUIRED_ADJACENT - 1)%nat.
Proof.
  rewrite gen_produced_classify, gen_cache_take. repeat split.
  - etrans; [apply prefix_take|apply take_while_prefix].
  - rewrite length_take. lia.
Qed.

(** C3, as stated, fails: on the full ring with the left neighbor in
    [removed], the pair (false, true) of that neighbor is captured, while
    stopping at the first actual=false pair would capture nothing. *)
Lemma gen_cache_keeps_removed_pair :
  ∃ ts, ring_full_board = Some ts ∧
    gen_cache ts [Some 2%nat] (ring ts 3) = [(false, true)] ∧
    take (REQUIRED_ADJACENT - 1)
         (take_while fst (gen_produced ts [Some 2%nat] (ring ts 3))) = [].
Proof. eexists. split; [by vm_compute|]. by vm_compute. Qed.

(** ** [predict_legality] and the cache *)

Lemma predict_legality_tiles ts t self removed :
  tiles ts !! t = Some self →
  predict_legality ts t removed =
    (with_tiles ts (<[t := set_legal (predict ts self removed).1 self]> (tiles ts)),
     (predict ts self removed).2).
Proof.
  intros Ht. unfold predict_legality. rewrite Ht.
  by destruct (predict ts self removed).
Qed.

Lemma legal_cache_predict_legality ts t self removed :
  tiles ts !! t = Some self →
  legal_cache (predict_legality ts t removed).1 t = (predict ts self removed).1.
Proof.
  intros Ht. rewrite (predict_legality_tiles _ _ _ _ Ht). unfold legal_cache. simpl.
  rewrite list_lookup_insert_eq; [done|]. by eapply lookup_lt_Some.
Qed.

(** C2, as the code has it: when the cache is Unknown and the scan (with
    the wraparound replay) completes without the actual run reaching K, the
    cache is set to Illegal whether or not [removed] is empty, and the
    value returned is the predicted outcome. *)
Theorem predict_legality_caches_illegal ts t self removed result :
  tiles ts !! t = Some self →
  _legal self = None →
  scan (_gen ts (removed_set removed) (neighbors self)) 0 0 false = inl result →
  legal_cache (predict_legality ts t removed).1 t = Some false ∧
  (predict_legality ts t removed).2 = result.
Proof.
  intros Ht Hc Hs.
  rewrite (legal_cache_predict_legality _ _ _ _ Ht).
  rewrite (predict_legality_tiles _ _ _ _ Ht). simpl.
  unfold predict. rewrite Hc, Hs.
  rewrite bool_decide_eq_false_2 by done.
  by rewrite andb_false_r.
Qed.

Lemma predict_legality_caches_illegal_witness :
  ∃ ts, ring_full_board = Some ts ∧
    legal_cache (predict_legality ts 3 (Some [Some 2; Some 0; Some 1]%nat)).1 3
      = Some false ∧
    (predict_legality ts 3 (Some [Some 2; Some 0; Some 1]%nat)).2 = true.
Proof.
  eexists. split; [vm_compute; reflexivity|].
  eapply predict_legality_caches_illegal; vm_compute; reflexivity.
Defined.

(** C2, as stated, fails: the center of the full ring has an Unknown cache;
    predicting with three adjacent ring tiles removed completes the scan
    without the actual run reaching K, and the cache changes to Illegal. *)
Lemma predict_legality_nonempty_removed_sets_illegal :
  ∃ ts self, ring_full_board = Some ts ∧ tiles ts !! 3%nat = Some self ∧
    _legal self = None ∧
    not_removed (Some [Some 2; Some 0; Some 1]%nat) = false ∧
    scan (_gen ts [Some 2; Some 0; Some 1]%nat (neighbors self)) 0 0 false = inl true ∧
    legal_cache (predict_legality ts 3 (Some [Some 2; Some 0; Some 1]%nat)).1 3
      ≠ legal_cache ts 3.
Proof.
  do 2 eexists. split; [vm_compute; reflexivity|].
  split; [vm_compute; reflexivity|].
  repeat split; by vm_compute.
Qed.

(** ** Construction with a malformed radius *)

Lemma range_empty a b : b ≤ a → Py.range a b = [].
Proof. intros. unfold Py.range. by replace (Z.to_nat (b - a)) with O by lia. Qed.

(** C7, as the code has it: the constructor does not validate the radius.
    With a non-positive radius it completes and yields a board with no
    tiles, two padding rows and an empty catalog. *)
Theorem Tileset_init_nonpositive_radius radius :
  radius ≤ 0 →
  Tileset_init radius =
    Some {| rows := [Py.repeat None (2 * radius + 1); Py.repeat None (2 * radius + 1)];
            tiles := [];
            catalog := ∅ |}.
Proof.
  intros Hr. unfold Tileset_init.
  rewrite range_empty by lia. simpl.
  replace (2 * radius - 1 + 2) with (2 * radius + 1) by lia.
  rewrite decide_True by lia. done.
Qed.

Lemma Tileset_init_nonpositive_radius_witness :
  Tileset_init (-1) = Some {| rows := [[]; []]; tiles := []; catalog := ∅ |}.
Proof. apply (Tileset_init_nonpositive_radius (-1)). lia. Defined.

(** C7, as stated, fails: construction with radius 0 raises nothing. *)
Lemma Tileset_init_zero_radius_succeeds :
  Tileset_init 0 ≠ None ∧
  Tileset_init 0 = Some {| rows := [[None]; [None]]; tiles := []; catalog := ∅ |}.
Proof. split; by vm_compute. Qed.

(** ** The bitmap *)

(** C8 fails on the code: [bitmap] tests the truth value of the element,
    not [is not None].  On the one-tile board, a tile holding the empty
    string is occupied, yet its bit is 0 and the snapshot equals that of
    the empty board. *)
Theorem bitmap_ignores_falsy_token :
  ∃ ts ts', Tileset_init 1 = Some ts ∧
    set_tile_element ts 0 (Some EmptyString) = Some ts' ∧
    element ts 0 = None ∧
    element ts' 0 = Some EmptyString ∧
    bitmap ts' = 0 ∧ bitmap ts = bitmap ts'.
Proof.
  do 2 eexists. split; [vm_compute; reflexivity|].
  split; [vm_compute; reflexivity|].
  repeat split; by vm_compute.
Qed.

(** ** The element-change notification *)

Lemma foldl_alter_lookup (f : Tile → Tile) (l : list nat) (tls : list Tile) n :
  (∀ x, f (f x) = f x) →
  foldl (λ tls nb, alter f nb tls) tls l !! n =
    (if decide (n ∈ l) then f else id) <$> tls !! n.
Proof.
  intros Hf. revert tls.
  induction l as [|a l IH]; intros tls.
  - rewrite decide_False by apply not_elem_of_nil. simpl. by destruct (tls !! n).
  - simpl. rewrite IH, list_lookup_alter.
    destruct (decide (a = n)) as [->|Hne].
    + rewrite (decide_True (P := n ∈ n :: l)) by apply list_elem_of_here.
      destruct (tls !! n); simpl; [|by case_decide].
      case_decide; simpl; by rewrite ?Hf.
    + destruct (decide (n ∈ l)) as [Hin|Hin].
      * by rewrite decide_True by by apply list_elem_of_further.
      * rewrite decide_False; [done|].
        rewrite not_elem_of_cons. naive_solver.
Qed.

Lemma foldl_alter_length (f : Tile → Tile) (l : list nat) (tls : list Tile) :
  length (foldl (λ tls nb, alter f nb tls) tls l) = length tls.
Proof.
  revert tls. induction l as [|a l IH]; intros tls; simpl; [done|].
  by rewrite IH, length_alter.
Qed.

Lemma expire_legality_idemp onlyif tl :
  expire_legality onlyif (expire_legality onlyif tl) = expire_legality onlyif tl.
Proof.
  destruct onlyif as [b|]; simpl; [|done].
  destruct (decide (_legal tl = Some b)); simpl; [done|].
  by rewrite decide_False.
Qed.

(** What [element_changed] leaves: the rows, and the tiles with some caches
    expired. *)
Lemma element_changed_tiles ts tile previous current ts' :
  element_changed ts tile previous current = Some ts' →
  rows ts' = rows ts ∧
  tiles ts' =
    if decide (previous = current ∨ (previous = None ↔ current = None))
    then tiles ts
    else foldl (λ tls nb,
                  alter (expire_legality (Some (bool_decide (previous = None)))) nb tls)
               (tiles ts) (real_neighbors ts tile).
Proof.
  unfold element_changed. intros H.
  destruct (decide (previous = current)) as [->|Hne].
  { injection H as <-. by rewrite decide_True by by left. }
  destruct (match previous with
            | Some p => catalog_discard (catalog ts) p tile
            | None => Some (catalog ts)
            end) as [cat|]; simpl in H; [|done].
  destruct (decide (previous = None ↔ current = None)) as [Hiff|Hniff].
  - injection H as <-. simpl. by rewrite decide_True by by right.
  - injection H as <-. simpl. rewrite decide_False by tauto. done.
Qed.

(** C4: the notification changes no tile field but the legality cache, and
    a cache only in these two cases: the tile gained a token and the cache
    of a real neighbor was Legal, or it lost its token and the cache of a
    real neighbor was Illegal; the cache is then Unknown.  In particular a
    token-to-token substitution changes no cache. *)
Theorem element_changed_frame ts tile previous current ts' :
  element_changed ts tile previous current = Some ts' →
  rows ts' = rows ts ∧
  length (tiles ts') = length (tiles ts) ∧
  ∀ n tl, tiles ts !! n = Some tl →
    ∃ tl', tiles ts' !! n = Some tl' ∧
      xy tl' = xy tl ∧ neighbors tl' = neighbors tl ∧ _element tl' = _element tl ∧
      _legal tl' =
        if decide (n ∈ real_neighbors ts tile ∧
                   ((previous = None ∧ current ≠ None ∧ _legal tl = Some true) ∨
                    (previous ≠ None ∧ current = None ∧ _legal tl = Some false)))
        then None else _legal tl.
Proof.
  intros H. apply element_changed_tiles in H as [Hrows Htiles].
  split; [done|]. rewrite Htiles. clear Htiles Hrows.
  destruct (decide (previous = current ∨ (previous = None ↔ current = None)))
    as [Hsame|Hdiff].
  - split; [done|]. intros n tl Hn. exists tl. repeat split; [done|].
    rewrite decide_False; [done|]. intros [_ [(?&?&?)|(?&?&?)]]; naive_solver.
  - split; [apply foldl_alter_length|]. intros n tl Hn.
    rewrite foldl_alter_lookup by apply expire_legality_idemp.
    rewrite Hn. simpl.
    destruct (decide (n ∈ real_neighbors ts tile)) as [Hin|Hin].
    + eexists. split; [done|].
      unfold expire_legality.
      destruct previous as [p|], current as [c|]; try (exfalso; naive_solver).
      * rewrite bool_decide_eq_false_2 by done.
        destruct (decide (_legal tl = Some false)) as [Heq|Hneq]; simpl.
        -- repeat split. rewrite decide_True; [done|]. naive_solver.
        -- repeat split. rewrite decide_False; [done|]. naive_solver.
      * rewrite bool_decide_eq_true_2 by done.
        destruct (decide (_legal tl = Some true)) as [Heq|Hneq]; simpl.
        -- repeat split. rewrite decide_True; [done|]. naive_solver.
        -- repeat split. rewrite decide_False; [done|]. naive_solver.
    + exists tl. repeat split.
      rewrite decide_False; [done|]. naive_solver.
Qed.

(** ** Construction: the grid *)

Lemma range_cons a (k : nat) :
  Py.range a (a + Z.of_nat (S k)) = a :: Py.range (a + 1) (a + 1 + Z.of_nat k).
Proof.
  unfold Py.range.
  replace (Z.to_nat (a + Z.of_nat (S k) - a)) with (S k) by lia.
  replace (Z.to_nat (a + 1 + Z.of_nat k - (a + 1))) with k by lia.
  simpl. f_equal; [f_equal; lia|].
  rewrite <- fmap_S_seq, <- list_fmap_compose.
  apply list_fmap_ext. intros i. simpl. lia.
Qed.

Lemma setitem_in_range {A} (l : list A) (i : Z) (v : A) :
  0 ≤ i < Z.of_nat (length l) →
  Py.setitem l i v = Some (<[Z.to_nat i := v]> l).
Proof. intros. unfold Py.setitem. by rewrite decide_True. Qed.

Lemma getitem_in_range {A} (l : list A) (i : Z) :
  0 ≤ i < Z.of_nat (length l) → Py.getitem l i = l !! Z.to_nat i.
Proof. intros. unfold Py.getitem. by rewrite decide_True. Qed.

Lemma fresh_Tile_init x y : fresh_tile (Tile_init x y).
Proof. done. Qed.

Lemma fill_cell_ok d n0 a hoffset y tls row :
  0 ≤ a < d → (n0 ≤ length tls)%nat →
  row_ok d n0 a tls row →
  ∃ row', fill_cell hoffset y (tls, row) a =
            Some (tls ++ [Tile_init (a - hoffset) y], row') ∧
          row_ok d n0 (a + 1) (tls ++ [Tile_init (a - hoffset) y]) row'.
Proof.
  intros Ha Hn0 [Hlen Hids Hinj Hcov].
  unfold fill_cell. rewrite setitem_in_range by lia. simpl.
  eexists. split; [done|].
  assert (Hpos : (Z.to_nat (a + 1) < length row)%nat) by lia.
  split.
  - by rewrite length_insert.
  - intros X c HX. rewrite length_app. simpl.
    apply list_lookup_insert_Some in HX as [(<-&[= <-]&_)|(Hne&HX)].
    + lia.
    + apply Hids in HX. lia.
  - intros X X' c HX HX'.
    apply list_lookup_insert_Some in HX as [(<-&[= <-]&_)|(Hne&HX)];
      apply list_lookup_insert_Some in HX' as [(<-&Hc&_)|(Hne'&HX')];
      try done.
    + apply Hids in HX'. lia.
    + injection Hc as <-. apply Hids in HX. lia.
    + by eapply Hinj.
  - intros c Hc. rewrite length_app in Hc. simpl in Hc.
    destruct (decide (c = length tls)) as [->|Hne].
    + exists (Z.to_nat (a + 1)). by rewrite list_lookup_insert_eq.
    + destruct (Hcov c) as [X HX]; [lia|]. exists X.
      rewrite list_lookup_insert_ne; [done|].
      apply Hids in HX. lia.
Qed.

Lemma foldM_cons {A B} (f : B → A → option B) b a l :
  foldM f b (a :: l) = f b a ≫= λ b', foldM f b' l.
Proof. done. Qed.

Lemma foldM_app {A B} (f : B → A → option B) b l1 l2 :
  foldM f b (l1 ++ l2) = foldM f b l1 ≫= λ b', foldM f b' l2.
Proof.
  revert b. induction l1 as [|a l1 IH]; intros b; [done|].
  simpl. destruct (f b a); simpl; [apply IH|done].
Qed.

Lemma fill_row_ok d n0 hoffset y (k : nat) : ∀ a tls row,
  0 ≤ a → a + Z.of_nat k ≤ d → (n0 ≤ length tls)%nat →
  row_ok d n0 a tls row → Forall fresh_tile tls →
  ∃ tls' row',
    foldM (fill_cell hoffset y) (tls, row) (Py.range a (a + Z.of_nat k)) =
      Some (tls', row') ∧
    row_ok d n0 (a + Z.of_nat k) tls' row' ∧ Forall fresh_tile tls' ∧
    (n0 ≤ length tls')%nat.
Proof.
  induction k as [|k IH]; intros a tls row Ha Hk Hn0 Hrow Hfresh.
  - rewrite range_empty by lia. simpl. exists tls, row.
    by replace (a + Z.of_nat 0) with a by lia.
  - rewrite range_cons, foldM_cons.
    destruct (fill_cell_ok d n0 a hoffset y tls row) as (row1 & -> & Hrow1);
      [lia|done|done|]. simpl.
    destruct (IH (a + 1) (tls ++ [Tile_init (a - hoffset) y]) row1)
      as (tls' & row' & -> & Hrow' & Hfresh' & Hn0'); try lia; try done.
    + rewrite length_app. lia.
    + apply Forall_app. split; [done|]. apply Forall_singleton, fresh_Tile_init.
    + exists tls', row'. split; [done|].
      by replace (a + Z.of_nat (S k)) with (a + 1 + Z.of_nat k) by lia.
Qed.

Lemma taper_bounds r y :
  1 ≤ r → 0 ≤ y < 2 * r - 1 →
  let count := (2 * r - 1) - Z.abs (r - (y + 1)) in
  let start := ((2 * r - 1) - count) `div` 2 in
  0 ≤ start ∧ 0 ≤ count ∧ start + count ≤ 2 * r - 1.
Proof.
  intros Hr Hy count start. subst count start.
  pose proof (Z.div_pos (2 * r - 1 - (2 * r - 1 - Z.abs (r - (y + 1)))) 2).
  pose proof (Z.div_le_upper_bound
                (2 * r - 1 - (2 * r - 1 - Z.abs (r - (y + 1)))) 2
                (Z.abs (r - (y + 1)))).
  lia.
Qed.

Lemma blank_row_ok d (tls : list Tile) a :
  row_ok d (length tls) a tls (Py.repeat None (d + 2)).
Proof.
  unfold Py.repeat. split.
  - apply length_replicate.
  - intros X c HX. by apply lookup_replicate in HX as [? _].
  - intros X X' c HX. by apply lookup_replicate in HX as [? _].
  - intros c Hc. lia.
Qed.

Lemma build_row_ok r (k : nat) rws tls :
  1 ≤ r → Z.of_nat k < 2 * r - 1 →
  length rws = S k →
  grid_ok (2 * r - 1) (length tls) rws → Forall fresh_tile tls →
  ∃ rws' tls',
    build_row r (rws, tls) (Z.of_nat k) = Some (rws', tls') ∧
    length rws' = S (S k) ∧
    grid_ok (2 * r - 1) (length tls') rws' ∧ Forall fresh_tile tls'.
Proof.
  intros Hr Hk Hlen [Hwidth Hids Hinj Hcov] Hfresh.
  unfold build_row.
  destruct (taper_bounds r (Z.of_nat k)) as (Hstart & Hcount & Hend); [lia..|].
  set (count := 2 * r - 1 - Z.abs (r - (Z.of_nat k + 1))) in *.
  set (start := (2 * r - 1 - count) `div` 2) in *.
  replace (start + count) with (start + Z.of_nat (Z.to_nat count)) by lia.
  destruct (fill_row_ok (2 * r - 1) (length tls) ((r - 1) `div` 2) (Z.of_nat k)
              (Z.to_nat count) start tls (Py.repeat None (2 * r - 1 + 2)))
    as (tls' & row' & -> & [Rlen Rids Rinj Rcov] & Hfresh' & Hn0);
    [lia|lia|done|apply blank_row_ok|done|].
  simpl. exists (rws ++ [row']), tls'. split; [done|].
  split; [rewrite length_app; simpl; lia|].
  split; [|done]. split.
  - intros Y row HY. apply lookup_snoc_Some in HY as [[_ HY]|[_ <-]]; eauto.
  - intros Y X row c HY HX.
    apply lookup_snoc_Some in HY as [[_ HY]|[-> <-]].
    + destruct (Hids _ _ _ _ HY HX). lia.
    + apply Rids in HX. lia.
  - intros Y X row Y' X' row2 c HY HX HY' HX'.
    apply lookup_snoc_Some in HY as [[_ HY]|[-> <-]];
      apply lookup_snoc_Some in HY' as [[_ HY']|[-> <-]].
    + by eapply Hinj.
    + destruct (Hids _ _ _ _ HY HX). apply Rids in HX'. lia.
    + destruct (Hids _ _ _ _ HY' HX'). apply Rids in HX. lia.
    + split; [done|]. by eapply Rinj.
  - intros c Hc. destruct (decide (c < length tls)%nat) as [Hold|Hnew].
    + destruct (Hcov c Hold) as (Y & X & row & HY & HX).
      exists Y, X, row. split; [|done].
      apply lookup_app_l_Some. done.
    + destruct (Rcov c) as [X HX]; [lia|].
      exists (length rws), X, row'. split; [|done].
      apply lookup_snoc_Some. by right.
Qed.

Lemma build_rows_ok r (j : nat) : ∀ (k : nat) rws tls,
  1 ≤ r → Z.of_nat k + Z.of_nat j ≤ 2 * r - 1 →
  length rws = S k →
  grid_ok (2 * r - 1) (length tls) rws → Forall fresh_tile tls →
  ∃ rws' tls',
    foldM (build_row r) (rws, tls)
          (Py.range (Z.of_nat k) (Z.of_nat k + Z.of_nat j)) = Some (rws', tls') ∧
    length rws' = S (k + j) ∧
    grid_ok (2 * r - 1) (length tls') rws' ∧ Forall fresh_tile tls'.
Proof.
  induction j as [|j IH]; intros k rws tls Hr Hkj Hlen Hgrid Hfresh.
  - rewrite range_empty by lia. simpl. exists rws, tls.
    by replace (k + 0)%nat with k by lia.
  - rewrite range_cons, foldM_cons.
    destruct (build_row_ok r k rws tls) as (rws1 & tls1 & -> & Hlen1 & Hgrid1 & Hfresh1);
      [lia|lia|done..|]. simpl.
    replace (Z.of_nat k + 1) with (Z.of_nat (S k)) by lia.
    destruct (IH (S k) rws1 tls1) as (rws' & tls' & -> & Hlen' & Hgrid' & Hfresh');
      [lia|lia|done..|].
    exists rws', tls'. split; [done|]. split; [lia|done].
Qed.

(** ** Construction: the adjacency pass *)

Lemma wired_refl S tls : (∀ t ns, ¬ S t ns) → wired S tls tls.
Proof.
  intros HS. split; [done|]. intros t tl Ht. exists tl.
  do 4 (split; [done|]). split; [by left|].
  intros [ns Hns]. by apply HS in Hns.
Qed.

Lemma wired_alter t ns tls :
  wired (λ t' ns', t' = t ∧ ns' = ns) tls (alter (set_neighbors ns) t tls).
Proof.
  split; [apply length_alter|]. intros t' tl Ht'.
  rewrite list_lookup_alter. destruct (decide (t = t')) as [->|Hne].
  - rewrite Ht'. simpl. eexists. split; [done|]. simpl.
    do 3 (split; [done|]). split; [by right|done].
  - exists tl. do 4 (split; [done|]). split; [by left|].
    intros [? [? _]]. congruence.
Qed.

Lemma wired_trans S1 S2 tls1 tls2 tls3 :
  wired S1 tls1 tls2 → wired S2 tls2 tls3 →
  wired (λ t ns, S1 t ns ∨ S2 t ns) tls1 tls3.
Proof.
  intros [Hlen1 H1] [Hlen2 H2]. split; [congruence|].
  intros t tl Ht.
  destruct (H1 t tl Ht) as (tl2 & Ht2 & Hxy & Hel & Hlg & Hfr & Has).
  destruct (H2 t tl2 Ht2) as (tl3 & Ht3 & Hxy' & Hel' & Hlg' & Hfr' & Has').
  exists tl3. split; [done|].
  do 3 (split; [congruence|]). split.
  - destruct Hfr' as [Heq|?]; [|by right; right].
    rewrite Heq. destruct Hfr as [?|?]; [by left|by right; left].
  - intros [ns [Hns|Hns]].
    + destruct Hfr' as [Heq|?]; [|by right].
      left. rewrite Heq. apply Has. by exists ns.
    + right. apply Has'. by exists ns.
Qed.

Lemma wired_iff S S' tls tls' :
  (∀ t ns, S t ns ↔ S' t ns) → wired S tls tls' → wired S' tls tls'.
Proof.
  intros HS [Hlen H]. split; [done|]. intros t tl Ht.
  destruct (H t tl Ht) as (tl' & Ht' & Hxy & Hel & Hlg & Hfr & Has).
  exists tl'. do 4 (split; [done|]). split.
  - destruct Hfr; [by left|right; by apply HS].
  - intros [ns Hns]. apply HS, Has. exists ns. by apply HS.
Qed.

Lemma foldM_wired {A} (step : list Tile → A → option (list Tile))
    (S : A → nat → list (option nat) → Prop) (l : list A) :
  (∀ a tls, a ∈ l → ∃ tls', step tls a = Some tls' ∧ wired (S a) tls tls') →
  ∀ tls, ∃ tls', foldM step tls l = Some tls' ∧
                 wired (λ t ns, ∃ a, a ∈ l ∧ S a t ns) tls tls'.
Proof.
  induction l as [|a l IH]; intros Hstep tls.
  - exists tls. split; [done|]. apply wired_refl.
    intros t ns [a [Ha _]]. by apply elem_of_nil in Ha.
  - rewrite foldM_cons.
    destruct (Hstep a tls) as (tls1 & -> & Hw1); [apply list_elem_of_here|]. simpl.
    destruct (IH (λ a' tls' Ha', Hstep a' tls' (list_elem_of_further _ _ _ Ha')) tls1)
      as (tls' & -> & Hw').
    exists tls'. split; [done|].
    eapply wired_iff; [|exact (wired_trans _ _ _ _ _ Hw1 Hw')].
    intros t ns. simpl. split.
    + intros [?|(a' & ? & ?)].
      * exists a. split; [apply list_elem_of_here|done].
      * exists a'. split; [by apply list_elem_of_further|done].
    + intros (a' & [->|?]%elem_of_cons & ?); [by left|right; by exists a'].
Qed.

Lemma look_in_range rws (y x : Z) row :
  0 ≤ y → 0 ≤ x → rws !! Z.to_nat y = Some row →
  look rws y x = mjoin (row !! Z.to_nat x).
Proof. intros ?? Hrow. unfold look. rewrite decide_True by done. by rewrite Hrow. Qed.

Lemma look_Some rws y x c :
  look rws y x = Some c ↔
    0 ≤ y ∧ 0 ≤ x ∧
    ∃ row, rws !! Z.to_nat y = Some row ∧ row !! Z.to_nat x = Some (Some c).
Proof.
  unfold look. destruct (decide (0 ≤ y ∧ 0 ≤ x)) as [[??]|?].
  - destruct (rws !! Z.to_nat y) as [row|]; simpl.
    + split.
      * intros Hc. do 2 (split; [done|]). exists row. split; [done|].
        by destruct (row !! Z.to_nat x) as [[c'|]|]; simplify_eq/=.
      * intros (_ & _ & row' & [= <-] & ->). done.
    + split; [done|]. by intros (_ & _ & row' & ? & _).
  - split; [done|]. intros (? & ? & _). tauto.
Qed.

Lemma getitem_look d n rws (y x : Z) row :
  grid_ok d n rws → 0 ≤ y → rws !! Z.to_nat y = Some row →
  0 ≤ x < d + 2 →
  Py.getitem row x = Some (look rws y x).
Proof.
  intros Hg Hy Hrow Hx.
  pose proof (grid_width _ _ _ Hg _ _ Hrow) as Hlen.
  rewrite getitem_in_range by lia.
  rewrite (look_in_range _ _ _ _ Hy (proj1 Hx) Hrow).
  destruct (lookup_lt_is_Some_2 row (Z.to_nat x)) as [v ->]; [lia|done].
Qed.

Lemma altrow_cases y : altrow y = 0 ∨ altrow y = -1.
Proof. unfold altrow. pose proof (Z.mod_pos_bound (y + 1) 2). lia. Qed.

Lemma enumerate_elem_of {A} (l : list A) (i : Z) (a : A) :
  (i, a) ∈ Py.enumerate l ↔ ∃ I : nat, i = Z.of_nat I ∧ l !! I = Some a.
Proof.
  unfold Py.enumerate. rewrite elem_of_lookup_imap. split.
  - intros (I & a' & [= -> ->] & Ha). by exists I.
  - intros (I & -> & Ha). by exists I, a.
Qed.

Lemma wire_cell_ok d n rws (Y X : nat) row above below tile tls :
  grid_ok d n rws → 1 ≤ Z.of_nat Y ≤ d →
  rws !! Y = Some row → rws !! (Y - 1)%nat = Some above →
  rws !! (Y + 1)%nat = Some below → row !! X = Some tile →
  ∃ tls',
    wire_cell row above below (altrow (Z.of_nat Y)) tls (Z.of_nat X, tile) = Some tls' ∧
    wired (λ t ns, tile = Some t ∧ ns = ring_at rws (Z.of_nat Y) (Z.of_nat X)) tls tls'.
Proof.
  intros Hg HY Hrow Habove Hbelow HX. unfold wire_cell.
  destruct tile as [t|].
  - destruct (grid_ids _ _ _ Hg _ _ _ _ Hrow HX) as (_ & _ & HXd).
    destruct (altrow_cases (Z.of_nat Y)) as [Halt|Halt].
    all: rewrite (getitem_look d n rws (Z.of_nat Y) _ row Hg) by (rewrite ?Nat2Z.id; (done || lia)).
    all: rewrite (getitem_look d n rws (Z.of_nat Y - 1) _ above Hg)
      by (try replace (Z.to_nat (Z.of_nat Y - 1)) with (Y - 1)%nat by lia; (done || lia)).
    all: rewrite (getitem_look d n rws (Z.of_nat Y - 1) _ above Hg)
      by (try replace (Z.to_nat (Z.of_nat Y - 1)) with (Y - 1)%nat by lia; (done || lia)).
    all: rewrite (getitem_look d n rws (Z.of_nat Y) _ row Hg) by (rewrite ?Nat2Z.id; (done || lia)).
    all: rewrite (getitem_look d n rws (Z.of_nat Y + 1) _ below Hg)
      by (try replace (Z.to_nat (Z.of_nat Y + 1)) with (Y + 1)%nat by lia; (done || lia)).
    all: rewrite (getitem_look d n rws (Z.of_nat Y + 1) _ below Hg)
      by (try replace (Z.to_nat (Z.of_nat Y + 1)) with (Y + 1)%nat by lia; (done || lia)).
    all: simpl; eexists; split; [done|].
    all: eapply wired_iff; [|apply wired_alter].
    all: intros t' ns'; unfold ring_at; naive_solver.
  - exists tls. split; [done|]. apply wired_refl. by intros t ns [? _].
Qed.

Lemma wire_row_ok d n rws (Y : nat) row tls :
  grid_ok d n rws → length rws = Z.to_nat (d + 2) →
  rws !! Y = Some row →
  ∃ tls',
    wire_row d rws tls (Z.of_nat Y, row) = Some tls' ∧
    wired (λ t ns, ∃ x, look rws (Z.of_nat Y) x = Some t ∧
                        ns = ring_at rws (Z.of_nat Y) x) tls tls'.
Proof.
  intros Hg Hlen Hrow. unfold wire_row.
  destruct (decide (Z.of_nat Y = 0 ∨ Z.of_nat Y > d)) as [Hskip|Hin].
  - exists tls. split; [done|]. apply wired_refl.
    intros t ns (x & (_ & _ & row' & Hrow' & Hx)%look_Some & _).
    rewrite Nat2Z.id, Hrow in Hrow'. injection Hrow' as <-.
    destruct (grid_ids _ _ _ Hg _ _ _ _ Hrow Hx) as (_ & ? & _). lia.
  - destruct (lookup_lt_is_Some_2 rws (Y - 1)) as [above Habove]; [lia|].
    destruct (lookup_lt_is_Some_2 rws (Y + 1)) as [below Hbelow]; [lia|].
    rewrite !getitem_in_range by lia.
    replace (Z.to_nat (Z.of_nat Y - 1)) with (Y - 1)%nat by lia.
    replace (Z.to_nat (Z.of_nat Y + 1)) with (Y + 1)%nat by lia.
    rewrite Habove, Hbelow. simpl.
    destruct (foldM_wired
                (wire_cell row above below (- ((Z.of_nat Y + 1) `mod` 2)))
                (λ xt t ns, xt.2 = Some t ∧ ns = ring_at rws (Z.of_nat Y) xt.1)
                (Py.enumerate row)) with (tls := tls) as (tls' & -> & Hw).
    { intros [x tile] tls0 (X & -> & HX)%enumerate_elem_of.
      apply (wire_cell_ok d n rws Y X row above below tile tls0); (done || lia). }
    exists tls'. split; [done|].
    eapply wired_iff; [|exact Hw].
    intros t ns. simpl. split.
    + intros ([x tile] & (X & -> & HX)%enumerate_elem_of & Htile & ->).
      simpl in *. subst tile. exists (Z.of_nat X). split; [|done].
      apply look_Some. do 2 (split; [lia|]). exists row.
      by rewrite !Nat2Z.id.
    + intros (x & (_ & Hx0 & row' & Hrow' & Hx)%look_Some & ->).
      rewrite Nat2Z.id, Hrow in Hrow'. injection Hrow' as <-.
      exists (x, Some t). split; [|done].
      apply enumerate_elem_of. exists (Z.to_nat x). split; [lia|done].
Qed.

Lemma wire_ok d n rws tls :
  grid_ok d n rws → length rws = Z.to_nat (d + 2) →
  ∃ tls',
    foldM (wire_row d rws) tls (Py.enumerate rws) = Some tls' ∧
    wired (λ t ns, ∃ y x, look rws y x = Some t ∧ ns = ring_at rws y x) tls tls'.
Proof.
  intros Hg Hlen.
  destruct (foldM_wired (wire_row d rws)
              (λ yr t ns, ∃ x, look rws yr.1 x = Some t ∧ ns = ring_at rws yr.1 x)
              (Py.enumerate rws)) with (tls := tls) as (tls' & -> & Hw).
  { intros [y row] tls0 (Y & -> & HY)%enumerate_elem_of.
    by apply (wire_row_ok d n). }
  exists tls'. split; [done|].
  eapply wired_iff; [|exact Hw].
  intros t ns. simpl. split.
  - intros ([y row] & _ & x & Hx & ->). by exists y, x.
  - intros (y & x & Hx & ->).
    pose proof Hx as (Hy & _ & row & Hrow & _)%look_Some.
    exists (y, row). split; [|by exists x].
    apply enumerate_elem_of. exists (Z.to_nat y). split; [lia|done].
Qed.

(** ** Construction: the whole board *)

Lemma grid_ok_snoc_blank d n rws :
  grid_ok d n rws → grid_ok d n (rws ++ [Py.repeat None (d + 2)]).
Proof.
  intros [Hwidth Hids Hinj Hcov].
  assert (Hblank : ∀ X c, Py.repeat (None : option nat) (d + 2) !! X ≠ Some (Some c)).
  { intros X c HX. unfold Py.repeat in HX. by apply lookup_replicate in HX as [? _]. }
  split.
  - intros Y row [[_ HY]|[_ <-]]%lookup_snoc_Some; [eauto|].
    apply length_replicate.
  - intros Y X row c [[_ HY]|[_ <-]]%lookup_snoc_Some HX; [eauto|].
    by apply Hblank in HX.
  - intros Y X row Y' X' row' c [[_ HY]|[_ <-]]%lookup_snoc_Some HX
      [[_ HY']|[_ <-]]%lookup_snoc_Some HX';
      try (by apply Hblank in HX); try (by apply Hblank in HX'); eauto.
  - intros c Hc. destruct (Hcov c Hc) as (Y & X & row & HY & HX).
    exists Y, X, row. split; [by apply lookup_app_l_Some|done].
Qed.

Lemma grid_ok_blank d : grid_ok d 0 [Py.repeat None (d + 2)].
Proof.
  assert (Hblank : ∀ X c, Py.repeat (None : option nat) (d + 2) !! X ≠ Some (Some c)).
  { intros X c HX. unfold Py.repeat in HX. by apply lookup_replicate in HX as [? _]. }
  split.
  - intros Y row [-> <-]%list_lookup_singleton_Some. apply length_replicate.
  - intros Y X row c [-> <-]%list_lookup_singleton_Some HX. by apply Hblank in HX.
  - intros Y X row Y' X' row' c [-> <-]%list_lookup_singleton_Some HX.
    by apply Hblank in HX.
  - intros c Hc. lia.
Qed.

(** For a positive radius the constructor returns a board: its tiles are
    empty with an Unknown cache, its catalog is empty, and its wiring
    follows the grid. *)
Lemma Tileset_init_ok radius :
  1 ≤ radius →
  ∃ ts, Tileset_init radius = Some ts ∧ static_ok ts ∧ catalog ts = ∅ ∧
    ∀ t tl, tiles ts !! t = Some tl → _element tl = None ∧ _legal tl = None.
Proof.
  intros Hr. unfold Tileset_init.
  set (d := 2 * radius - 1).
  destruct (build_rows_ok radius (Z.to_nat d) 0 [Py.repeat None (d + 2)] [])
    as (rws & tls & Hbuild & Hlen & Hgrid & Hfresh);
    [lia|lia|done|apply grid_ok_blank|done|].
  replace (Z.of_nat 0 + Z.of_nat (Z.to_nat d)) with d in Hbuild by lia.
  change (Z.of_nat 0) with 0 in Hbuild. rewrite Hbuild. simpl.
  apply grid_ok_snoc_blank in Hgrid. fold d in Hgrid.
  destruct (wire_ok d (length tls) (rws ++ [Py.repeat None (d + 2)]) tls)
    as (tls' & -> & Hlen' & Hw); [done|rewrite length_app; simpl; lia|].
  simpl. eexists. split; [done|]. simpl.
  split; [|split; [done|]].
  - exists d. simpl. rewrite Hlen'. split; [done|].
    intros t tl' Ht'.
    destruct (lookup_lt_is_Some_2 tls t) as [tl Ht].
    { rewrite <- Hlen'. by eapply lookup_lt_Some. }
    destruct (Hw t tl Ht) as (tl2 & Ht2 & _ & _ & _ & _ & Has).
    rewrite Ht' in Ht2. injection Ht2 as <-.
    destruct Has as (y & x & Hyx & Hns); [|by exists y, x].
    destruct (grid_cover _ _ _ Hgrid t) as (Y & X & row & HY & HX).
    { by eapply lookup_lt_Some. }
    exists (ring_at (rws ++ [Py.repeat None (d + 2)]) (Z.of_nat Y) (Z.of_nat X)).
    exists (Z.of_nat Y), (Z.of_nat X). split; [|done].
    apply look_Some. do 2 (split; [lia|]). exists row. by rewrite !Nat2Z.id.
  - intros t tl' Ht'.
    destruct (lookup_lt_is_Some_2 tls t) as [tl Ht].
    { rewrite <- Hlen'. by eapply lookup_lt_Some. }
    destruct (Hw t tl Ht) as (tl2 & Ht2 & _ & Hel & Hlg & _).
    rewrite Ht' in Ht2. injection Ht2 as <-.
    rewrite Forall_lookup in Hfresh.
    destruct (Hfresh t tl Ht) as (_ & ? & ?). split; congruence.
Qed.

(** ** Consequences of the wiring *)

Lemma grid_look_ids d n rws y x c :
  grid_ok d n rws → look rws y x = Some c →
  (c < n)%nat ∧ 1 ≤ y ≤ d ∧ 1 ≤ x ≤ d.
Proof.
  intros Hg (Hy & Hx & row & Hrow & Hc)%look_Some.
  destruct (grid_ids _ _ _ Hg _ _ _ _ Hrow Hc). lia.
Qed.

Lemma grid_look_inj d n rws y x y' x' c :
  grid_ok d n rws → look rws y x = Some c → look rws y' x' = Some c →
  y = y' ∧ x = x'.
Proof.
  intros Hg (Hy & Hx & row & Hrow & Hc)%look_Some
    (Hy' & Hx' & row' & Hrow' & Hc')%look_Some.
  destruct (grid_inj _ _ _ Hg _ _ _ _ _ _ _ Hrow Hc Hrow' Hc'). lia.
Qed.

Lemma altrow_flip y :
  altrow (y + 1) = -1 - altrow y ∧ altrow (y - 1) = -1 - altrow y.
Proof.
  unfold altrow.
  pose proof (Z.div_mod (y + 1) 2). pose proof (Z.mod_pos_bound (y + 1) 2).
  pose proof (Z.div_mod (y + 1 + 1) 2). pose proof (Z.mod_pos_bound (y + 1 + 1) 2).
  pose proof (Z.div_mod (y - 1 + 1) 2). pose proof (Z.mod_pos_bound (y - 1 + 1) 2).
  lia.
Qed.

Lemma ring_valid ts t tl :
  tiles ts !! t = Some tl → ring ts t = neighbors tl.
Proof. intros Ht. unfold ring. by rewrite Ht. Qed.

Lemma ring_lookup_valid ts t i v :
  ring ts t !! i = Some v → ∃ tl, tiles ts !! t = Some tl ∧ neighbors tl !! i = Some v.
Proof.
  unfold ring. destruct (tiles ts !! t) as [tl|]; simpl; [|done]. by exists tl.
Qed.

Lemma static_ring_length ts t :
  static_ok ts → (t < length (tiles ts))%nat → length (ring ts t) = 6%nat.
Proof.
  intros (d & Hg & Hring) Ht.
  destruct (lookup_lt_is_Some_2 _ _ Ht) as [tl Htl].
  rewrite (ring_valid _ _ _ Htl).
  by destruct (Hring t tl Htl) as (y & x & _ & ->).
Qed.

Lemma static_ring_handles ts t i n :
  static_ok ts → ring ts t !! i = Some (Some n) → (n < length (tiles ts))%nat.
Proof.
  intros (d & Hg & Hring) (tl & Htl & Hi)%ring_lookup_valid.
  destruct (Hring t tl Htl) as (y & x & _ & Hns). rewrite Hns in Hi.
  unfold ring_at in Hi.
  do 6 (destruct i as [|i];
        [injection Hi as Hi; by destruct (grid_look_ids _ _ _ _ _ _ Hg Hi)|]).
  done.
Qed.

Lemma static_symmetric_1 ts a b i :
  static_ok ts → (i < 6)%nat →
  ring ts b !! i = Some (Some a) →
  ring ts a !! ((i + 3) `mod` 6)%nat = Some (Some b).
Proof.
  intros Hst Hi Hab.
  pose proof (static_ring_handles _ _ _ _ Hst Hab) as Ha.
  destruct Hst as (d & Hg & Hring).
  apply ring_lookup_valid in Hab as (tlb & Htlb & Hab).
  destruct (Hring b tlb Htlb) as (y & x & Hb & Hnsb). rewrite Hnsb in Hab.
  destruct (lookup_lt_is_Some_2 _ _ Ha) as [tla Htla].
  destruct (Hring a tla Htla) as (y' & x' & Ha' & Hnsa).
  rewrite (ring_valid _ _ _ Htla), Hnsa.
  destruct (altrow_flip y) as [Hup Hdown].
  destruct (altrow_flip y') as [Hup' Hdown'].
  unfold ring_at in Hab.
  do 6 (destruct i as [|i];
        [injection Hab as Hab;
         destruct (grid_look_inj _ _ _ _ _ _ _ _ Hg Ha' Hab) as [-> ->];
         simpl; rewrite <- Hb; do 2 f_equal; lia|]).
  lia.
Qed.

Lemma static_symmetric ts : static_ok ts → symmetric_wiring ts.
Proof.
  intros Hst a b i Hi. split.
  - by apply static_symmetric_1.
  - intros Hba.
    apply (static_symmetric_1 _ b a) in Hba; [|done|].
    + replace (((i + 3) `mod` 6 + 3) `mod` 6)%nat with i in Hba; [done|].
      do 6 (destruct i as [|i]; [done|]). lia.
    + apply Nat.mod_upper_bound. lia.
Qed.

Lemma Tileset_init_no_tiles radius ts :
  radius ≤ 0 → Tileset_init radius = Some ts →
  tiles ts = [] ∧ catalog ts = ∅ ∧
  rows ts = [Py.repeat None (2 * radius - 1 + 2); Py.repeat None (2 * radius - 1 + 2)].
Proof.
  intros Hr. unfold Tileset_init.
  rewrite range_empty by lia. simpl.
  rewrite decide_True by lia. by intros [= <-].
Qed.

(** Whatever the radius, a board the constructor returns starts with empty
    tiles, Unknown caches, an empty catalog and a wiring that follows the
    grid. *)
Lemma Tileset_init_static radius ts :
  Tileset_init radius = Some ts →
  static_ok ts ∧ catalog ts = ∅ ∧
  ∀ t tl, tiles ts !! t = Some tl → _element tl = None ∧ _legal tl = None.
Proof.
  intros Hinit. destruct (decide (1 ≤ radius)) as [Hr|Hr].
  - destruct (Tileset_init_ok radius Hr) as (ts' & Hinit' & ?).
    rewrite Hinit in Hinit'. by injection Hinit' as <-.
  - destruct (Tileset_init_no_tiles radius ts) as (Htiles & Hcat & Hrows); [lia|done|].
    split; [|split; [done|]].
    + exists (2 * radius - 1). rewrite Htiles, Hrows. split.
      * apply grid_ok_snoc_blank with (rws := [_]), grid_ok_blank.
      * intros t tl Ht. by rewrite lookup_nil in Ht.
    + intros t tl Ht. by rewrite Htiles, lookup_nil in Ht.
Qed.

(** C10: on every board the constructor returns, tile [a] sits in slot [i]
    of the ring of [b] exactly when [b] sits in the opposite slot,
    (i + 3) mod 6, of the ring of [a]. *)
Theorem Tileset_init_symmetric radius ts :
  Tileset_init radius = Some ts →
  ∀ a b i, (i < 6)%nat →
    ring ts b !! i = Some (Some a) ↔
    ring ts a !! ((i + 3) `mod` 6)%nat = Some (Some b).
Proof.
  intros Hinit. apply Tileset_init_static in Hinit as [Hst _].
  exact (static_symmetric ts Hst).
Qed.

Lemma Tileset_init_symmetric_witness :
  ∃ ts, Tileset_init 2 = Some ts ∧
    (ring ts 3 !! 1%nat = Some (Some 0%nat) ↔
     ring ts 0 !! ((1 + 3) `mod` 6)%nat = Some (Some 3%nat)).
Proof.
  eexists. split; [vm_compute; reflexivity|].
  apply (Tileset_init_symmetric 2); [vm_compute; reflexivity|lia].
Defined.

Lemma element_changed_frame_witness :
  ∃ ts ts', Tileset_init 2 = Some ts ∧
    element_changed ts 3 None (Some "A") = Some ts' ∧
    rows ts' = rows ts ∧ length (tiles ts') = length (tiles ts).
Proof.
  destruct (Tileset_init 2) as [ts|] eqn:Hts; [|by vm_compute in Hts].
  destruct (element_changed ts 3 None (Some "A")) as [ts'|] eqn:Hts'.
  - exists ts, ts'. do 2 (split; [done|]).
    destruct (element_changed_frame ts 3 None (Some "A") ts' Hts') as (? & ? & _).
    done.
  - vm_compute in Hts. injection Hts as <-. by vm_compute in Hts'.
Defined.

(** ** The scan decides the circular run *)

Lemma classify_slot ts removed nb :
  classify ts removed nb = slot_pair (slot_of ts removed nb).
Proof.
  unfold classify, gen_slot, slot_of.
  destruct nb as [n|]; [|done]. destruct (element ts n); [|done].
  by case_decide.
Qed.

Lemma gen_slots ts removed nbrs :
  _gen ts removed nbrs = replayed (slot_pair <$> (slot_of ts removed <$> nbrs)).
Proof.
  unfold _gen, replayed. rewrite gen_produced_classify, gen_cache_take.
  rewrite <- list_fmap_compose.
  by rewrite (list_fmap_ext (classify ts removed) (slot_pair ∘ slot_of ts removed))
    by (intros; apply classify_slot).
Qed.

Lemma passable_slot ts removed nb :
  passable ts nb = (slot_pair (slot_of ts removed nb)).1.
Proof.
  unfold passable, slot_of. destruct nb as [n|]; [|done].
  destruct (element ts n); [|done]. by case_decide.
Qed.

Lemma scan_slots (slots : list slot) :
  length slots = 6%nat →
  match scan (replayed (slot_pair <$> slots)) 0 0 false with
  | inr _ => has_run REQUIRED_ADJACENT (fst ∘ slot_pair <$> slots) = true
  | inl r => has_run REQUIRED_ADJACENT (fst ∘ slot_pair <$> slots) = false ∧
             r = has_run REQUIRED_ADJACENT (snd ∘ slot_pair <$> slots)
  end.
Proof.
  intros Hlen.
  do 6 (destruct slots as [|[] slots]; [done|..]).
  all: destruct slots; [|done].
  all: vm_compute; done.
Qed.

(** ** Runs are monotone in the open slots *)

Lemma has_run_true k (slots : list bool) :
  has_run k slots = true ↔
    ∃ start, (start < length slots)%nat ∧
      ∀ j, (j < k)%nat →
        nth ((start + j) `mod` length slots)%nat slots false = true.
Proof.
  unfold has_run. rewrite existsb_exists. split.
  - intros (start & Hin%in_seq & Hall). exists start. split; [lia|].
    intros j Hj. rewrite forallb_forall in Hall. apply Hall, in_seq. lia.
  - intros (start & Hlt & Hall). exists start. split; [apply in_seq; lia|].
    apply forallb_forall. intros j Hj%in_seq. apply Hall. lia.
Qed.

Lemma nth_fmap_true {A} (f : A → bool) (l : list A) i :
  nth i (f <$> l) false = true ↔ ∃ a, l !! i = Some a ∧ f a = true.
Proof.
  rewrite nth_lookup, list_lookup_fmap.
  destruct (l !! i) as [a|]; simpl; naive_solver.
Qed.

Lemma has_run_mono {A} (f g : A → bool) (l : list A) k :
  (∀ a, a ∈ l → f a = true → g a = true) →
  has_run k (f <$> l) = true → has_run k (g <$> l) = true.
Proof.
  intros Hfg. rewrite !has_run_true, !length_fmap.
  intros (start & Hlt & Hall). exists start. split; [done|].
  intros j Hj. apply nth_fmap_true.
  destruct (proj1 (nth_fmap_true f l _) (Hall j Hj)) as (a & Ha & Hf).
  exists a. split; [done|]. apply Hfg; [|done].
  by eapply list_elem_of_lookup_2.
Qed.

Lemma has_run_ext {A} (f g : A → bool) (l : list A) k :
  (∀ a, a ∈ l → f a = g a) →
  has_run k (f <$> l) = has_run k (g <$> l).
Proof.
  intros Hfg. f_equal. apply Forall_fmap_ext, Forall_forall. done.
Qed.

(** ** Queries refresh caches with the true answer *)

Lemma legal_spec_slots ts removed t :
  legal_spec ts t =
    has_run REQUIRED_ADJACENT (fst ∘ slot_pair <$> (slot_of ts removed <$> ring ts t)).
Proof.
  unfold legal_spec. rewrite <- list_fmap_compose.
  apply has_run_ext. intros nb _. apply passable_slot.
Qed.

Lemma slot_of_not_removed ts nb :
  (slot_pair (slot_of ts [] nb)).2 = (slot_pair (slot_of ts [] nb)).1.
Proof.
  unfold slot_of. destruct nb as [n|]; [|done].
  destruct (element ts n); [|done].
  rewrite decide_False; [done|]. apply not_elem_of_nil.
Qed.

Lemma not_removed_set removed :
  not_removed removed = true → removed_set removed = [].
Proof. by destruct removed as [[|??]|]. Qed.

Lemma predict_scan ts t self removed :
  static_ok ts → tiles ts !! t = Some self →
  match scan (_gen ts (removed_set removed) (neighbors self)) 0 0 false with
  | inr _ => legal_spec ts t = true
  | inl r => legal_spec ts t = false ∧ (not_removed removed = true → r = false)
  end.
Proof.
  intros Hst Ht.
  assert (Hlen : length (slot_of ts (removed_set removed) <$> neighbors self) = 6%nat).
  { rewrite length_fmap, <- (ring_valid _ _ _ Ht).
    apply static_ring_length; [done|]. by eapply lookup_lt_Some. }
  pose proof (scan_slots _ Hlen) as Hscan.
  rewrite gen_slots.
  rewrite (legal_spec_slots ts (removed_set removed) t), (ring_valid _ _ _ Ht).
  destruct (scan _ _ _ _) as [r|[]]; [|done].
  destruct Hscan as [Hno Hr]. split; [done|].
  intros Hnr. rewrite Hr, <- Hno, (not_removed_set _ Hnr).
  rewrite <- !list_fmap_compose. apply has_run_ext.
  intros nb _. simpl. apply slot_of_not_removed.
Qed.

(** [predict] leaves the cache or sets it to the true answer. *)
Lemma predict_cache ts t self removed :
  static_ok ts → tiles ts !! t = Some self →
  (predict ts self removed).1 = _legal self ∨
  (predict ts self removed).1 = Some (legal_spec ts t).
Proof.
  intros Hst Ht. pose proof (predict_scan ts t self removed Hst Ht) as Hscan.
  unfold predict.
  destruct (_legal self) as [[|]|] eqn:Hc; [by left|..].
  - destruct (not_removed removed); simpl; [by left|].
    destruct (scan _ _ _ _) as [r|[]]; right; simpl;
      [by destruct Hscan as [-> _]|by rewrite Hscan].
  - rewrite andb_false_r.
    destruct (scan _ _ _ _) as [r|[]]; right; simpl;
      [by destruct Hscan as [-> _]|by rewrite Hscan].
Qed.

(** With a sound cache, [predict] caches the true answer, and returns it
    when nothing is hypothetically removed. *)
Lemma predict_sound ts t self removed :
  static_ok ts → tiles ts !! t = Some self →
  (∀ b, _legal self = Some b → b = legal_spec ts t) →
  (predict ts self removed).1 = Some (legal_spec ts t) ∧
  (not_removed removed = true → (predict ts self removed).2 = legal_spec ts t).
Proof.
  intros Hst Ht Hsound.
  pose proof (predict_scan ts t self removed Hst Ht) as Hscan.
  unfold predict.
  destruct (_legal self) as [[|]|] eqn:Hc.
  - by rewrite <- (Hsound true).
  - rewrite <- (Hsound false) by done.
    destruct (not_removed removed); simpl; [done|].
    destruct (scan _ _ _ _) as [r|[]]; simpl; [done|].
    by rewrite <- (Hsound false) in Hscan.
  - rewrite andb_false_r.
    destruct (scan _ _ _ _) as [r|[]]; simpl.
    + destruct Hscan as [-> Hr]. split; [done|]. intros Hnr. by apply Hr.
    + by rewrite Hscan.
Qed.

Lemma passable_ext ts ts' nb :
  (∀ u, element ts' u = element ts u) → passable ts' nb = passable ts nb.
Proof. intros He. destruct nb as [n|]; [|done]. simpl. by rewrite He. Qed.

Lemma legal_spec_ext ts ts' t :
  (∀ u, element ts' u = element ts u) → ring ts' t = ring ts t →
  legal_spec ts' t = legal_spec ts t.
Proof.
  intros He Hr. unfold legal_spec. rewrite Hr.
  apply has_run_ext. intros nb _. by apply passable_ext.
Qed.

Lemma cache_update_refl ts : cache_update ts ts.
Proof. do 3 (split; [done|]). intros t. do 2 (split; [done|]). by left. Qed.

Lemma cache_update_trans ts1 ts2 ts3 :
  cache_update ts1 ts2 → cache_update ts2 ts3 → cache_update ts1 ts3.
Proof.
  intros (Hr1 & Hc1 & Hl1 & H1) (Hr2 & Hc2 & Hl2 & H2).
  do 3 (split; [congruence|]). intros t.
  destruct (H1 t) as (He1 & Hn1 & Hg1), (H2 t) as (He2 & Hn2 & Hg2).
  do 2 (split; [congruence|]).
  destruct Hg2 as [-> | ->]; [done|]. right. f_equal.
  apply legal_spec_ext; [|done]. intros u. apply H1.
Qed.

Lemma insert_tile_lookup (tls : list Tile) t self tl' u :
  tls !! t = Some self →
  <[t := tl']> tls !! u = if decide (u = t) then Some tl' else tls !! u.
Proof.
  intros Ht. destruct (decide (u = t)) as [->|Hne].
  - apply list_lookup_insert_eq. by eapply lookup_lt_Some.
  - by apply list_lookup_insert_ne.
Qed.

Lemma predict_legality_cache_update ts t removed :
  static_ok ts → cache_update ts (predict_legality ts t removed).1.
Proof.
  intros Hst. destruct (tiles ts !! t) as [self|] eqn:Ht.
  - rewrite (predict_legality_tiles _ _ _ _ Ht). simpl.
    do 2 (split; [done|]). split; [apply length_insert|].
    intros u. unfold element, ring, legal_cache. simpl.
    rewrite (insert_tile_lookup _ _ _ _ _ Ht).
    destruct (decide (u = t)) as [->|Hne]; [|by repeat split; try left].
    rewrite Ht. simpl. do 2 (split; [done|]).
    apply (predict_cache ts t self removed Hst Ht).
  - unfold predict_legality. rewrite Ht. apply cache_update_refl.
Qed.

Lemma cache_update_static ts ts' :
  cache_update ts ts' → static_ok ts → static_ok ts'.
Proof.
  intros (Hr & _ & Hl & H) (d & Hg & Hring). exists d.
  rewrite Hr, Hl. split; [done|].
  intros t tl' Ht'.
  destruct (lookup_lt_is_Some_2 (tiles ts) t) as [tl Ht].
  { rewrite <- Hl. by eapply lookup_lt_Some. }
  destruct (Hring t tl Ht) as (y & x & Hyx & Hns).
  exists y, x. split; [done|].
  destruct (H t) as (_ & Hrg & _).
  rewrite (ring_valid _ _ _ Ht), (ring_valid _ _ _ Ht') in Hrg. congruence.
Qed.

Lemma cache_update_sound ts ts' :
  cache_update ts ts' → cache_sound ts → cache_sound ts'.
Proof.
  intros (_ & _ & _ & H) Hs t b Hb.
  destruct (H t) as (_ & Hrg & Hc).
  rewrite (legal_spec_ext ts ts' t); [|intros u; apply H|done].
  destruct Hc as [Hc|Hc]; rewrite Hc in Hb; [by apply Hs|by injection Hb].
Qed.

Lemma cache_update_catalog ts ts' :
  cache_update ts ts' → catalog_consistent ts → catalog_consistent ts'.
Proof.
  intros (_ & Hc & _ & H) Hcat e t.
  unfold catalog_get. rewrite Hc. destruct (H t) as (-> & _). apply Hcat.
Qed.

Lemma cache_update_inv ts ts' :
  cache_update ts ts' → board_inv ts → board_inv ts'.
Proof.
  intros Hu (Hst & Hs & Hc). split; [|split].
  - by eapply cache_update_static.
  - by eapply cache_update_sound.
  - by eapply cache_update_catalog.
Qed.

Lemma foldl_cache_update {A B} (f : Tileset * B → A → Tileset * B) (l : list A) :
  (∀ ts b a, static_ok ts → cache_update ts (f (ts, b) a).1) →
  ∀ ts b, static_ok ts → cache_update ts (foldl f (ts, b) l).1.
Proof.
  intros Hf. induction l as [|a l IH]; intros ts b Hst; simpl.
  - apply cache_update_refl.
  - pose proof (Hf ts b a Hst) as H1.
    destruct (f (ts, b) a) as [ts1 b1]. simpl in H1.
    eapply cache_update_trans; [done|].
    apply IH. by eapply cache_update_static.
Qed.

Lemma predict_then_legal_cache_update ts t removed :
  static_ok ts →
  cache_update ts (legal (predict_legality ts t removed).1 t).1.
Proof.
  intros Hst. eapply cache_update_trans.
  - by apply predict_legality_cache_update.
  - apply predict_legality_cache_update.
    eapply cache_update_static; [|done]. by apply predict_legality_cache_update.
Qed.

Lemma affected_neighbors_cache_update ts c :
  static_ok ts → cache_update ts (affected_neighbors ts c).1.
Proof.
  unfold affected_neighbors. apply foldl_cache_update.
  clear ts. intros ts result n Hst. unfold affected_neighbors_step.
  pose proof (predict_legality_cache_update ts n (Some [Some c]) Hst) as H1.
  pose proof (predict_then_legal_cache_update ts n (Some [Some c]) Hst) as H2.
  destruct (predict_legality ts n (Some [Some c])) as [ts1 p]. simpl in *.
  destruct p; [|done].
  destruct (legal ts1 n) as [ts2 l]. simpl in *. by destruct l.
Qed.

Lemma affected_tiles_over_cache_update ts tiles candidates :
  static_ok ts → cache_update ts (affected_tiles_over ts tiles candidates).1.
Proof.
  unfold affected_tiles_over. apply foldl_cache_update.
  clear ts. intros ts acc n Hst. unfold affected_tiles_step.
  destruct (element ts n); [|apply cache_update_refl].
  pose proof (predict_legality_cache_update ts n (Some tiles) Hst) as H1.
  pose proof (predict_then_legal_cache_update ts n (Some tiles) Hst) as H2.
  destruct (predict_legality ts n (Some tiles)) as [ts1 p]. simpl in *.
  destruct p; [|done].
  destruct (legal ts1 n) as [ts2 l]. simpl in *. by destruct l.
Qed.

Lemma legal_tiles_cache_update ts :
  static_ok ts → cache_update ts (legal_tiles ts).1.
Proof.
  unfold legal_tiles. generalize (seq 0 (length (tiles ts))). intros l.
  apply foldl_cache_update.
  clear ts. intros ts acc n Hst.
  pose proof (predict_legality_cache_update ts n None Hst) as H1.
  unfold legal. destruct (predict_legality ts n None) as [ts1 r]. simpl in *.
  by destruct (r && bool_decide (element ts1 n ≠ None)).
Qed.

(** ** Mutations keep the catalog and the caches right *)

Lemma expire_fold_lookup b nbrs (tls : list Tile) u :
  foldl (λ tls nb, alter (expire_legality (Some b)) nb tls) tls nbrs !! u =
    (λ tl, if decide (u ∈ nbrs ∧ _legal tl = Some b) then set_legal None tl else tl)
      <$> tls !! u.
Proof.
  rewrite foldl_alter_lookup by apply expire_legality_idemp.
  destruct (tls !! u) as [tl|]; [|by case_decide]. simpl. f_equal.
  unfold expire_legality.
  destruct (decide (u ∈ nbrs)), (decide (_legal tl = Some b)); simpl.
  - by rewrite decide_True.
  - rewrite decide_False; [done|tauto].
  - rewrite decide_False; [done|tauto].
  - rewrite decide_False; [done|tauto].
Qed.

Lemma element_changed_spec ts tile previous current :
  previous ≠ current →
  (∀ p, previous = Some p → is_Some (catalog ts !! p)) →
  ∃ ts', element_changed ts tile previous current = Some ts' ∧
    rows ts' = rows ts ∧
    tiles ts' =
      (if decide (previous = None ↔ current = None) then tiles ts
       else foldl (λ tls nb,
                     alter (expire_legality (Some (bool_decide (previous = None)))) nb tls)
                  (tiles ts) (real_neighbors ts tile)) ∧
    ∀ e, catalog_get ts' e =
      let s := if decide (previous = Some e) then catalog_get ts e ∖ {[tile]}
               else catalog_get ts e in
      if decide (current = Some e) then s ∪ {[tile]} else s.
Proof.
  intros Hne Hkey. unfold element_changed. rewrite decide_False by done.
  assert (∃ cat,
    match previous with
    | Some p => catalog_discard (catalog ts) p tile
    | None => Some (catalog ts)
    end = Some cat ∧
    ∀ e, default ∅ (cat !! e) =
      if decide (previous = Some e) then catalog_get ts e ∖ {[tile]}
      else catalog_get ts e) as (cat & -> & Hcat).
  { destruct previous as [p|].
    - destruct (Hkey p eq_refl) as [s Hs]. unfold catalog_discard. rewrite Hs. simpl.
      eexists. split; [done|]. intros e. unfold catalog_get.
      rewrite lookup_insert. destruct (decide (p = e)) as [->|Hpe].
      + rewrite decide_True by done. by rewrite Hs.
      + rewrite decide_False by congruence. done.
    - exists (catalog ts). split; [done|]. intros e. by rewrite decide_False. }
  simpl.
  assert (Hcat' : ∀ e,
    default ∅ (match current with
               | Some c => catalog_add cat c tile
               | None => cat
               end !! e) =
      if decide (current = Some e) then default ∅ (cat !! e) ∪ {[tile]}
      else default ∅ (cat !! e)).
  { intros e. destruct current as [c|]; [|by rewrite decide_False].
    unfold catalog_add. rewrite lookup_insert.
    destruct (decide (c = e)) as [->|Hce].
    - by rewrite decide_True.
    - rewrite decide_False by congruence. done. }
  destruct (decide (previous = None ↔ current = None)) as [Hiff|Hniff].
  - eexists. split; [done|]. simpl. do 2 (split; [done|]).
    intros e. unfold catalog_get at 1. simpl. rewrite Hcat', Hcat. done.
  - eexists. split; [done|]. simpl. do 2 (split; [done|]).
    intros e. unfold catalog_get at 1. simpl. rewrite Hcat', Hcat. done.
Qed.

Lemma catalog_consistent_key ts t e :
  catalog_consistent ts → element ts t = Some e → is_Some (catalog ts !! e).
Proof.
  intros Hcat He. apply Hcat in He. unfold catalog_get in He.
  destruct (catalog ts !! e); [done|]. simpl in He. set_solver.
Qed.

Lemma expired_element ts t previous value u tl :
  _element (expired ts t previous value u tl) = _element tl.
Proof. unfold expired. by case_decide. Qed.

Lemma expired_neighbors ts t previous value u tl :
  neighbors (expired ts t previous value u tl) = neighbors tl.
Proof. unfold expired. by case_decide. Qed.

Lemma expired_legal ts t previous value u tl :
  _legal (expired ts t previous value u tl) =
    if decide (u ∈ real_neighbors ts t ∧
               ((previous = None ∧ _legal tl = Some true) ∨
                (value = None ∧ _legal tl = Some false)))
    then None else _legal tl.
Proof. unfold expired. by case_decide. Qed.

Lemma set_tile_element_spec ts t self value :
  tiles ts !! t = Some self → value ≠ _element self → catalog_consistent ts →
  ∃ ts', set_tile_element ts t value = Some ts' ∧
    rows ts' = rows ts ∧ length (tiles ts') = length (tiles ts) ∧
    (∀ u, element ts' u = if decide (u = t) then value else element ts u) ∧
    (∀ u, ring ts' u = ring ts u) ∧
    (∀ u, legal_cache ts' u =
       if decide (u ∈ real_neighbors ts t ∧
                  ((_element self = None ∧ legal_cache ts u = Some true) ∨
                   (value = None ∧ legal_cache ts u = Some false)))
       then None else legal_cache ts u) ∧
    (∀ e, catalog_get ts' e =
       let s := if decide (_element self = Some e) then catalog_get ts e ∖ {[t]}
                else catalog_get ts e in
       if decide (value = Some e) then s ∪ {[t]} else s).
Proof.
  intros Ht Hne Hcat. unfold set_tile_element. rewrite Ht.
  rewrite decide_False by done.
  set (ts1 := with_tiles ts (<[t := set_element value self]> (tiles ts))).
  assert (Hts1 : ∀ u, tiles ts1 !! u =
            if decide (u = t) then Some (set_element value self) else tiles ts !! u).
  { intros u. by apply insert_tile_lookup with (self := self). }
  assert (Hnb : real_neighbors ts1 t = real_neighbors ts t).
  { unfold real_neighbors, ring. rewrite Hts1, decide_True, Ht by done. done. }
  destruct (element_changed_spec ts1 t (_element self) value)
    as (ts' & -> & Hrows & Htiles & Hcat'); [congruence| |].
  { intros p Hp. apply (catalog_consistent_key ts t p Hcat).
    unfold element. by rewrite Ht. }
  exists ts'. split; [done|]. split; [done|].
  assert (Hlook : ∀ u, tiles ts' !! u =
            expired ts t (_element self) value u <$> tiles ts1 !! u).
  { intros u. rewrite Htiles.
    destruct (decide (_element self = None ↔ value = None)) as [Hiff|Hniff].
    - destruct (tiles ts1 !! u) as [tl|]; [|done]. simpl. f_equal.
      unfold expired. rewrite decide_False; [done|].
      intros [_ [[Hp _]|[Hv _]]]; apply Hne; [rewrite Hp; tauto|].
      rewrite Hv. symmetry. tauto.
    - rewrite expire_fold_lookup, Hnb.
      destruct (tiles ts1 !! u) as [tl|]; [|done]. simpl. f_equal.
      unfold expired.
      destruct (_element self) as [p|] eqn:Hp.
      + assert (value = None) as Hv.
        { destruct value; [|done]. exfalso. apply Hniff. done. }
        rewrite bool_decide_eq_false_2 by done.
        destruct (decide (u ∈ real_neighbors ts t ∧ _legal tl = Some false)) as [[??]|Hn].
        * rewrite decide_True; [done|]. split; [done|]. by right.
        * rewrite decide_False; [done|]. intros [? [[? _]|[_ ?]]]; [done|tauto].
      + rewrite bool_decide_eq_true_2 by done.
        destruct (decide (u ∈ real_neighbors ts t ∧ _legal tl = Some true)) as [[??]|Hn].
        * rewrite decide_True; [done|]. split; [done|]. by left.
        * rewrite decide_False; [done|].
          intros [? [[_ ?]|[? _]]]; [tauto|]. apply Hniff. done. }
  split; [|split; [|split; [|split]]].
  - rewrite Htiles. destruct (decide _); [|rewrite foldl_alter_length];
      apply length_insert.
  - intros u. unfold element. rewrite Hlook, Hts1.
    destruct (decide (u = t)); [simpl; by rewrite expired_element|].
    destruct (tiles ts !! u); [simpl; by rewrite expired_element|done].
  - intros u. unfold ring. rewrite Hlook, Hts1.
    destruct (decide (u = t)) as [->|]; [rewrite Ht; simpl; by rewrite expired_neighbors|].
    destruct (tiles ts !! u); [simpl; by rewrite expired_neighbors|done].
  - intros u. unfold legal_cache. rewrite Hlook, Hts1.
    destruct (decide (u = t)) as [->|].
    + rewrite Ht. simpl. by rewrite expired_legal.
    + destruct (tiles ts !! u) as [tl|]; simpl; [by rewrite expired_legal|].
      rewrite decide_False; [done|]. intros [_ [[_ ?]|[_ ?]]]; done.
  - intros e. rewrite Hcat'. done.
Qed.

Lemma static_ok_ext ts ts' :
  rows ts' = rows ts → length (tiles ts') = length (tiles ts) →
  (∀ u, ring ts' u = ring ts u) → static_ok ts → static_ok ts'.
Proof.
  intros Hr Hl Hring (d & Hg & Hst). exists d.
  rewrite Hr, Hl. split; [done|].
  intros t tl' Ht'.
  destruct (lookup_lt_is_Some_2 (tiles ts) t) as [tl Ht].
  { rewrite <- Hl. by eapply lookup_lt_Some. }
  destruct (Hst t tl Ht) as (y & x & Hyx & Hns).
  exists y, x. split; [done|].
  specialize (Hring t).
  rewrite (ring_valid _ _ _ Ht), (ring_valid _ _ _ Ht') in Hring. congruence.
Qed.

Lemma real_neighbors_elem ts t u :
  u ∈ real_neighbors ts t ↔ Some u ∈ ring ts t.
Proof.
  unfold real_neighbors. rewrite list_elem_of_omap. split.
  - intros (x & Hx & Hid). simpl in Hid. by subst x.
  - intros Hu. by exists (Some u).
Qed.

(** By symmetry, the tiles whose ring holds [t] are the real neighbors of
    [t]: these are the caches the notification visits. *)
Lemma ring_holds_neighbor ts t u :
  static_ok ts → Some t ∈ ring ts u → u ∈ real_neighbors ts t.
Proof.
  intros Hst [i Hi]%list_elem_of_lookup.
  assert (i < 6)%nat as Hi6.
  { destruct (ring_lookup_valid _ _ _ _ Hi) as (tl & Htl & _).
    rewrite <- (static_ring_length ts u Hst); [by eapply lookup_lt_Some|].
    by eapply lookup_lt_Some. }
  apply (static_symmetric ts Hst) in Hi; [|done].
  apply real_neighbors_elem. by eapply list_elem_of_lookup_2.
Qed.

Lemma legal_spec_passable ts ts' u :
  ring ts' u = ring ts u →
  (∀ nb, nb ∈ ring ts u → passable ts' nb = passable ts nb) →
  legal_spec ts' u = legal_spec ts u.
Proof. intros Hr Hp. unfold legal_spec. rewrite Hr. by apply has_run_ext. Qed.

Lemma legal_spec_mono ts ts' u :
  ring ts' u = ring ts u →
  (∀ nb, nb ∈ ring ts u → passable ts nb = true → passable ts' nb = true) →
  legal_spec ts u = true → legal_spec ts' u = true.
Proof. intros Hr Hp. unfold legal_spec. rewrite Hr. by apply has_run_mono. Qed.

Lemma passable_after_set ts ts' t value nb :
  (∀ u, element ts' u = if decide (u = t) then value else element ts u) →
  passable ts' nb =
    if decide (nb = Some t) then bool_decide (value = None) else passable ts nb.
Proof.
  intros He. destruct nb as [n|]; simpl; [|done].
  rewrite He. destruct (decide (n = t)) as [->|Hn].
  - by rewrite decide_True.
  - rewrite decide_False by congruence. done.
Qed.

Lemma set_tile_element_sound ts ts' t self value :
  static_ok ts → cache_sound ts →
  tiles ts !! t = Some self → value ≠ _element self →
  (∀ u, element ts' u = if decide (u = t) then value else element ts u) →
  (∀ u, ring ts' u = ring ts u) →
  (∀ u, legal_cache ts' u =
     if decide (u ∈ real_neighbors ts t ∧
                ((_element self = None ∧ legal_cache ts u = Some true) ∨
                 (value = None ∧ legal_cache ts u = Some false)))
     then None else legal_cache ts u) →
  cache_sound ts'.
Proof.
  intros Hst Hsound Ht Hne He Hring Hcache u b Hb.
  rewrite Hcache in Hb.
  destruct (decide _) as [|Hkeep] in Hb; [done|].
  pose proof (Hsound u b Hb) as Hspec.
  assert (Hprev : element ts t = _element self) by (unfold element; by rewrite Ht).
  assert (Hpass : ∀ nb, passable ts' nb =
            if decide (nb = Some t) then bool_decide (value = None)
            else passable ts nb).
  { intros nb. by apply passable_after_set. }
  assert (Hpt : passable ts (Some t) = bool_decide (_element self = None)).
  { simpl. by rewrite Hprev. }
  assert (Hfar : u ∉ real_neighbors ts t → legal_spec ts' u = legal_spec ts u).
  { intros Hnot. apply legal_spec_passable; [done|].
    intros nb Hnb. rewrite Hpass, decide_False; [done|].
    intros ->. apply Hnot. by apply ring_holds_neighbor. }
  destruct (decide (u ∈ real_neighbors ts t)) as [Hin|Hnot];
    [|by rewrite Hfar].
  destruct (_element self) as [p|] eqn:Hp, value as [c|] eqn:Hv; try done.
  - (* substitution *)
    rewrite Hspec. symmetry. apply legal_spec_passable; [done|].
    intros nb _. rewrite Hpass. case_decide; [subst nb|done].
    by rewrite Hpt.
  - (* loss: more slots are open *)
    destruct b; [|exfalso; apply Hkeep; split; [done|by right]].
    symmetry. apply (legal_spec_mono ts ts'); [done| |done].
    intros nb _. rewrite Hpass. by case_decide.
  - (* gain: fewer slots are open *)
    destruct b; [exfalso; apply Hkeep; split; [done|by left]|].
    destruct (legal_spec ts' u) eqn:Hnew; [|done].
    rewrite Hspec. apply (legal_spec_mono ts' ts); [done| |done].
    intros nb _. rewrite Hpass. case_decide; [done|done].
Qed.

Lemma set_tile_element_catalog ts ts' t self value :
  catalog_consistent ts →
  tiles ts !! t = Some self → value ≠ _element self →
  (∀ u, element ts' u = if decide (u = t) then value else element ts u) →
  (∀ e, catalog_get ts' e =
     let s := if decide (_element self = Some e) then catalog_get ts e ∖ {[t]}
              else catalog_get ts e in
     if decide (value = Some e) then s ∪ {[t]} else s) →
  catalog_consistent ts'.
Proof.
  intros Hcat Ht Hne He Hget e u. rewrite Hget, He. simpl.
  assert (Hprev : element ts t = _element self) by (unfold element; by rewrite Ht).
  pose proof (Hcat e u) as Hu. pose proof (Hcat e t) as Htt.
  rewrite Hprev in Htt.
  destruct (decide (u = t)) as [->|Hut].
  - destruct (decide (value = Some e)) as [->|Hv]; [set_solver|].
    destruct (decide (_element self = Some e)); set_solver.
  - destruct (decide (value = Some e)), (decide (_element self = Some e)); set_solver.
Qed.

(** The setter always succeeds on a well-formed board and keeps it
    well-formed. *)
Lemma set_tile_element_inv ts t value :
  board_inv ts → ∃ ts', set_tile_element ts t value = Some ts' ∧ board_inv ts'.
Proof.
  intros (Hst & Hsound & Hcat).
  destruct (tiles ts !! t) as [self|] eqn:Ht.
  - destruct (decide (value = _element self)) as [Heq|Hne].
    + exists ts. unfold set_tile_element. by rewrite Ht, decide_True.
    + destruct (set_tile_element_spec ts t self value Ht Hne Hcat)
        as (ts' & Hset & Hrows & Hlen & He & Hring & Hcache & Hget).
      exists ts'. split; [done|]. split; [|split].
      * by eapply static_ok_ext.
      * by eapply set_tile_element_sound.
      * by eapply set_tile_element_catalog.
  - exists ts. unfold set_tile_element. by rewrite Ht.
Qed.

Lemma step_inv ts ts' : step ts ts' → board_inv ts → board_inv ts'.
Proof.
  intros Hstep Hinv. pose proof Hinv as (Hst & _).
  destruct Hstep as [ts t value ts' Hset| | | |].
  - destruct (set_tile_element_inv ts t value Hinv) as (ts2 & Hset2 & ?).
    congruence.
  - eapply cache_update_inv; [|done]. by apply predict_legality_cache_update.
  - eapply cache_update_inv; [|done]. by apply affected_neighbors_cache_update.
  - eapply cache_update_inv; [|done]. by apply affected_tiles_over_cache_update.
  - eapply cache_update_inv; [|done]. by apply legal_tiles_cache_update.
Qed.

Lemma init_inv radius ts : Tileset_init radius = Some ts → board_inv ts.
Proof.
  intros (Hst & Hcat & Hfresh)%Tileset_init_static.
  split; [done|]. split.
  - intros t b Hb. unfold legal_cache in Hb.
    destruct (tiles ts !! t) as [tl|] eqn:Ht; [|done]. simpl in Hb.
    destruct (Hfresh t tl Ht) as [_ Hl]. congruence.
  - intros e t. unfold catalog_get, element. rewrite Hcat, lookup_empty. simpl.
    split; [set_solver|].
    destruct (tiles ts !! t) as [tl|] eqn:Ht; [|done]. simpl.
    destruct (Hfresh t tl Ht) as [Hel _]. congruence.
Qed.

Lemma reachable_inv radius ts : reachable radius ts → board_inv ts.
Proof.
  induction 1 as [ts Hinit|ts ts' _ IH Hstep].
  - by eapply init_inv.
  - by eapply step_inv.
Qed.

(** ** The invariants on reachable boards *)

Lemma legal_returns_spec ts t :
  board_inv ts → (legal ts t).2 = legal_spec ts t.
Proof.
  intros (Hst & Hsound & _).
  unfold legal. destruct (tiles ts !! t) as [self|] eqn:Ht.
  - rewrite (predict_legality_tiles _ _ _ _ Ht). simpl.
    apply (predict_sound ts t self None Hst Ht); [|done].
    intros b Hb. apply Hsound. unfold legal_cache. by rewrite Ht.
  - unfold predict_legality, legal_spec, ring. by rewrite Ht.
Qed.

Lemma reachable_set_elements radius ts values ts' :
  reachable radius ts → set_elements ts values = Some ts' → reachable radius ts'.
Proof.
  unfold set_elements. revert ts.
  induction values as [|[t v] values IH]; intros ts Hreach Hset; simpl in Hset.
  - by injection Hset as <-.
  - destruct (set_tile_element ts t v) as [ts1|] eqn:H1; [|done]. simpl in Hset.
    apply (IH ts1); [|done].
    eapply reachable_step; [done|]. by eapply step_set_element.
Qed.

Lemma reachable_ring_full_board ts :
  ring_full_board = Some ts → reachable 2 ts.
Proof.
  unfold ring_full_board. intros (ts0 & Hinit & Hset)%bind_Some.
  eapply reachable_set_elements; [|exact Hset].
  by apply reachable_init.
Qed.

Lemma ring_full_board_is_Some : ∃ ts, ring_full_board = Some ts.
Proof. eexists. vm_compute. reflexivity. Qed.

Lemma ring_full_board_corner :
  ∃ ts, ring_full_board = Some ts ∧ element ts 0 ≠ None.
Proof. eexists. split; [vm_compute; reflexivity|]. by vm_compute. Qed.

(** C1: on every board reachable from a freshly constructed one by
    mutations and queries, reading [legal] of a cell returns the legality
    recomputed from scratch (a circular run of at least K empty-or-null
    ring slots over the current elements), and whatever answer a cache
    holds is that same value: no cache is ever stale. *)
Theorem legal_read_is_recomputation radius ts t :
  reachable radius ts →
  (legal ts t).2 = legal_spec ts t ∧
  (∀ b, legal_cache ts t = Some b → b = legal_spec ts t).
Proof.
  intros Hinv%reachable_inv. split.
  - by apply legal_returns_spec.
  - intros b Hb. by apply Hinv.
Qed.

Lemma legal_read_is_recomputation_witness :
  ∃ ts, ring_full_board = Some ts ∧
    (legal ts 3).2 = legal_spec ts 3 ∧
    (∀ b, legal_cache ts 3 = Some b → b = legal_spec ts 3).
Proof.
  destruct ring_full_board_is_Some as [ts Hboard].
  exists ts. split; [exact Hboard|].
  apply (legal_read_is_recomputation 2).
  by apply reachable_ring_full_board.
Defined.

(** C6: on every reachable board the catalog set of a token is exactly the
    set of cells whose element is that token; and every element change
    succeeds and returns a board on which this holds again, the catalog
    being updated inside the setter. *)
Theorem catalog_invariant radius ts :
  reachable radius ts →
  (∀ (e : token) (t : nat), t ∈ catalog_get ts e ↔ element ts t = Some e) ∧
  (∀ t value, ∃ ts', set_tile_element ts t value = Some ts' ∧
     ∀ (e : token) (u : nat), u ∈ catalog_get ts' e ↔ element ts' u = Some e).
Proof.
  intros Hinv%reachable_inv. split; [apply Hinv|].
  intros t value.
  destruct (set_tile_element_inv ts t value Hinv) as (ts' & Hset & Hinv').
  exists ts'. split; [done|]. apply Hinv'.
Qed.

Lemma catalog_invariant_witness :
  ∃ ts, ring_full_board = Some ts ∧
    ∀ (e : token) (t : nat), t ∈ catalog_get ts e ↔ element ts t = Some e.
Proof.
  destruct ring_full_board_is_Some as [ts Hboard].
  exists ts. split; [exact Hboard|].
  apply (catalog_invariant 2).
  by apply reachable_ring_full_board.
Defined.

(** ** Legality and the cell's own element *)

Lemma static_no_self_loop ts t : static_ok ts → Some t ∉ ring ts t.
Proof.
  intros (d & Hg & Hring) [i Hi]%list_elem_of_lookup.
  apply ring_lookup_valid in Hi as (tl & Htl & Hi).
  destruct (Hring t tl Htl) as (y & x & Hyx & Hns). rewrite Hns in Hi.
  unfold ring_at in Hi.
  do 6 (destruct i as [|i];
        [injection Hi as Hi;
         destruct (grid_look_inj _ _ _ _ _ _ _ _ Hg Hyx Hi); lia|]).
  done.
Qed.

Lemma classify_ext ts ts' removed nb :
  (∀ n, nb = Some n → element ts' n = element ts n) →
  classify ts' removed nb = classify ts removed nb.
Proof.
  intros He. unfold classify, gen_slot. destruct nb as [n|]; [|done].
  by rewrite (He n eq_refl).
Qed.

Lemma gen_ext ts ts' removed nbrs :
  (∀ n, Some n ∈ nbrs → element ts' n = element ts n) →
  _gen ts' removed nbrs = _gen ts removed nbrs.
Proof.
  intros He. unfold _gen. rewrite !gen_produced_classify, !gen_cache_take.
  assert (classify ts' removed <$> nbrs = classify ts removed <$> nbrs) as ->; [|done].
  apply Forall_fmap_ext, Forall_forall. intros nb Hnb.
  apply classify_ext. intros n ->. by apply He.
Qed.

Lemma predict_ext ts ts' self self' removed :
  _legal self' = _legal self → neighbors self' = neighbors self →
  (∀ n, Some n ∈ neighbors self → element ts' n = element ts n) →
  predict ts' self' removed = predict ts self removed.
Proof.
  intros Hl Hn He. unfold predict. by rewrite Hl, Hn, (gen_ext ts ts').
Qed.

Lemma legal_tiles_fold ts0 (l : list nat) : ∀ ts (acc : gset nat),
  board_inv ts → cache_update ts0 ts →
  ∀ u, u ∈ (foldl (λ (st : Tileset * gset nat) t,
                     let '(ts, acc) := st in
                     let '(ts, l) := legal ts t in
                     if l && bool_decide (element ts t ≠ None) then (ts, acc ∪ {[t]})
                     else (ts, acc)) (ts, acc) l).2
       ↔ u ∈ acc ∨ (u ∈ l ∧ legal_spec ts0 u = true ∧ element ts0 u ≠ None).
Proof.
  induction l as [|t l IH]; intros ts acc Hinv Hupd u; simpl.
  - rewrite elem_of_nil. tauto.
  - pose proof (legal_returns_spec ts t Hinv) as Hr.
    pose proof (predict_legality_cache_update ts t None (proj1 Hinv)) as H1.
    fold (legal ts t) in H1.
    destruct (legal ts t) as [ts1 r]. simpl in Hr, H1.
    pose proof (cache_update_trans _ _ _ Hupd H1) as Hupd1.
    pose proof (cache_update_inv _ _ H1 Hinv) as Hinv1.
    assert (Hspec : legal_spec ts t = legal_spec ts0 t).
    { destruct Hupd as (_ & _ & _ & H). apply legal_spec_ext; intros; apply H. }
    assert (Hel : element ts1 t = element ts0 t).
    { destruct Hupd1 as (_ & _ & _ & H). apply H. }
    rewrite Hel. subst r. rewrite Hspec.
    rewrite elem_of_cons.
    destruct (legal_spec ts0 t) eqn:Hlg; simpl.
    + destruct (decide (element ts0 t ≠ None)) as [Hne|He].
      * rewrite bool_decide_eq_true_2 by done.
        rewrite (IH ts1 _ Hinv1 Hupd1). rewrite elem_of_union, elem_of_singleton.
        split; [intros [[?| ->]|?]|intros [?|[[-> |?] ?]]]; tauto.
      * rewrite bool_decide_eq_false_2 by done.
        rewrite (IH ts1 _ Hinv1 Hupd1).
        split; [intros [?|?]|intros [?|[[-> |?] ?]]]; tauto.
    + rewrite (IH ts1 _ Hinv1 Hupd1).
      split; [intros [?|?]|intros [?|[[-> |?] [? ?]]]]; try tauto. congruence.
Qed.

(** C9: the legality of a cell does not depend on its own element: giving
    the cell any other element changes nothing in what [predict_legality]
    computes for it.  So an empty cell whose ring has a run of at least K
    empty-or-null slots reads [legal] = true, and it is [legal_tiles] that
    leaves it out, returning exactly the nonempty legal cells. *)
Theorem legality_ignores_own_element radius ts t :
  reachable radius ts →
  (∀ self value removed, tiles ts !! t = Some self →
     predict (with_tiles ts (<[t := set_element value self]> (tiles ts)))
             (set_element value self) removed
       = predict ts self removed) ∧
  (element ts t = None → legal_spec ts t = true →
     (legal ts t).2 = true ∧ t ∉ (legal_tiles ts).2) ∧
  (∀ u, u ∈ (legal_tiles ts).2 ↔
     (u < length (tiles ts))%nat ∧ legal_spec ts u = true ∧ element ts u ≠ None).
Proof.
  intros Hinv%reachable_inv.
  assert (Hlt : ∀ u, u ∈ (legal_tiles ts).2 ↔
     (u < length (tiles ts))%nat ∧ legal_spec ts u = true ∧ element ts u ≠ None).
  { intros u. unfold legal_tiles.
    rewrite (legal_tiles_fold ts _ ts ∅ Hinv (cache_update_refl ts)).
    rewrite elem_of_seq. split; [intros [?|[? ?]]|intros [? ?]].
    - set_solver.
    - split; [lia|done].
    - right. split; [lia|done]. }
  split; [|split; [|done]].
  - intros self value removed Ht. apply predict_ext; [done..|].
    intros n Hn. unfold element. simpl.
    rewrite (insert_tile_lookup _ _ _ _ _ Ht), decide_False; [done|].
    intros ->. apply (static_no_self_loop ts t (proj1 Hinv)).
    by rewrite (ring_valid _ _ _ Ht).
  - intros He Hlg. split.
    + by rewrite legal_returns_spec.
    + rewrite Hlt. intros (_ & _ & Hne). done.
Qed.

Lemma legality_ignores_own_element_witness :
  ∃ ts, ring_full_board = Some ts ∧
    ∀ u, u ∈ (legal_tiles ts).2 ↔
      (u < length (tiles ts))%nat ∧ legal_spec ts u = true ∧ element ts u ≠ None.
Proof.
  destruct ring_full_board_is_Some as [ts Hboard].
  exists ts. split; [exact Hboard|].
  apply (legality_ignores_own_element 2 ts 3).
  by apply reachable_ring_full_board.
Defined.

(** ** The two impact queries agree on a single tile *)

Lemma predict_legality_lookup ts n self removed u :
  tiles ts !! n = Some self →
  tiles (predict_legality ts n removed).1 !! u =
    if decide (u = n) then Some (set_legal (predict ts self removed).1 self)
    else tiles ts !! u.
Proof.
  intros Hn. rewrite (predict_legality_tiles _ _ _ _ Hn). simpl.
  by apply insert_tile_lookup with (self := self).
Qed.

Lemma predict_legality_element ts n removed u :
  element (predict_legality ts n removed).1 u = element ts u.
Proof.
  destruct (tiles ts !! n) as [self|] eqn:Hn.
  - unfold element. rewrite (predict_legality_lookup _ _ _ _ _ Hn).
    destruct (decide (u = n)) as [->|]; [by rewrite Hn|done].
  - unfold predict_legality. by rewrite Hn.
Qed.

Lemma would_become_legal_ext ts ts' rm m self self' :
  (∀ u, element ts' u = element ts u) →
  tiles ts !! m = Some self → tiles ts' !! m = Some self' →
  neighbors self' = neighbors self →
  (_legal self' = Some true ↔ _legal self = Some true) →
  would_become_legal ts' rm m = would_become_legal ts rm m.
Proof.
  intros He Hm Hm' Hn Hl. unfold would_become_legal. rewrite Hm, Hm', Hn.
  rewrite (gen_ext ts ts') by (intros; apply He).
  f_equal. f_equal. by apply bool_decide_ext.
Qed.

(** [probe] answers [would_become_legal], changes no element, and leaves
    the answer for every tile as it was. *)
Lemma probe_spec ts rm n :
  rm ≠ [] →
  (probe ts rm n).2 = would_become_legal ts rm n ∧
  (∀ u, element (probe ts rm n).1 u = element ts u) ∧
  (∀ m, would_become_legal (probe ts rm n).1 rm m =
        would_become_legal ts rm m).
Proof.
  intros Hne. unfold probe.
  destruct (tiles ts !! n) as [self|] eqn:Hn; cycle 1.
  { unfold predict_legality, would_become_legal. rewrite Hn. simpl.
    by rewrite ?Hn. }
  assert (Hnr : not_removed (Some rm) = false) by by destruct rm.
  pose proof (λ u, predict_legality_lookup ts n self (Some rm) u Hn) as Hlook1.
  pose proof (predict_legality_element ts n (Some rm)) as Hel1.
  rewrite (predict_legality_tiles ts n self (Some rm) Hn) in *.
  set (ts1 := with_tiles ts _) in *. simpl in Hlook1, Hel1.
  set (c1 := (predict ts self (Some rm)).1) in *.
  assert (Hn1 : tiles ts1 !! n = Some (set_legal c1 self)).
  { by rewrite Hlook1, decide_True. }
  pose proof (λ u, predict_legality_lookup ts1 n _ None u Hn1) as Hlook2.
  pose proof (predict_legality_element ts1 n None) as Hel2.
  unfold legal. rewrite (predict_legality_tiles ts1 n _ None Hn1) in *.
  set (ts2 := with_tiles ts1 _) in *. simpl in Hlook2, Hel2.
  assert (Hcases :
    (c1 = Some true ∧ would_become_legal ts rm n = false) ∨
    (c1 = Some false ∧
     (predict ts self (Some rm)).2 = would_become_legal ts rm n ∧
     _legal self ≠ Some true)).
  { unfold c1, would_become_legal, predict. rewrite Hn, Hnr. simpl.
    destruct (_legal self) as [[|]|]; simpl; [by left|..].
    - destruct (scan _ _ _ _) as [[|]|[]]; simpl; [right|right|left]; done.
    - destruct (scan _ _ _ _) as [[|]|[]]; simpl; [right|right|left]; done. }
  assert (Hsecond : predict ts1 (set_legal c1 self) None =
            (c1, bool_decide (c1 = Some true))).
  { unfold predict. simpl.
    destruct Hcases as [(-> & _)|(-> & _)]; done. }
  rewrite Hsecond in *. simpl in *.
  assert (Hl1 : ∀ u, tiles ts1 !! u =
            if decide (u = n) then Some (set_legal c1 self) else tiles ts !! u)
    by exact Hlook1.
  assert (Hl2 : ∀ u, tiles ts2 !! u =
            if decide (u = n) then Some (set_legal c1 self) else tiles ts !! u).
  { intros u. unfold ts2. simpl. rewrite Hsecond. simpl.
    rewrite Hlook2, Hlook1. by destruct (decide (u = n)). }
  clearbody ts2 ts1. clear Hlook1 Hlook2 Hn1.
  assert (Hfinal : ∀ ts', (∀ u, element ts' u = element ts u) →
            (∀ u, tiles ts' !! u =
                  if decide (u = n) then Some (set_legal c1 self) else tiles ts !! u) →
            ∀ m, would_become_legal ts' rm m = would_become_legal ts rm m).
  { intros ts' He' Hlook' m.
    destruct (decide (m = n)) as [->|Hmn].
    - destruct Hcases as [(Hc & Hw)|(Hc & _ & Hnot)].
      + rewrite Hw. unfold would_become_legal.
        rewrite Hlook', decide_True by done. simpl.
        by rewrite bool_decide_eq_true_2.
      + apply (would_become_legal_ext ts ts' rm n self (set_legal c1 self));
          [done|done|by rewrite Hlook', decide_True|done|].
        simpl. rewrite Hc. split; [done|]. intros. done.
    - unfold would_become_legal. rewrite Hlook', decide_False by done.
      destruct (tiles ts !! m) as [tlm|]; [|done].
      by rewrite (gen_ext ts ts') by (intros; apply He'). }
  destruct (predict ts self (Some rm)).2 eqn:Hp.
  - simpl. split; [|split].
    + destruct Hcases as [(-> & ->)|(-> & <- & _)]; done.
    + intros u. by rewrite Hel2, Hel1.
    + apply Hfinal; [intros u; by rewrite Hel2, Hel1|done].
  - simpl. split; [|split].
    + destruct Hcases as [(Hc & ->)|(_ & <- & _)]; done.
    + done.
    + by apply Hfinal.
Qed.

Lemma affected_neighbors_step_probe c ts res n :
  affected_neighbors_step c (ts, res) n =
    ((probe ts [Some c] n).1, if (probe ts [Some c] n).2 then res ++ [n] else res).
Proof.
  unfold affected_neighbors_step, probe.
  destruct (predict_legality ts n (Some [Some c])) as [ts1 [|]]; [|done].
  by destruct (legal ts1 n) as [ts2 [|]].
Qed.

Lemma affected_tiles_step_probe rm ts (acc : gset nat) n :
  affected_tiles_step rm (ts, acc) n =
    match element ts n with
    | None => (ts, acc)
    | Some _ => ((probe ts rm n).1, if (probe ts rm n).2 then acc ∪ {[n]} else acc)
    end.
Proof.
  unfold affected_tiles_step, probe. destruct (element ts n); [|done].
  destruct (predict_legality ts n (Some rm)) as [ts1 [|]]; [|done].
  by destruct (legal ts1 n) as [ts2 [|]].
Qed.

Lemma affected_neighbors_fold c ts0 (l : list nat) : ∀ ts res,
  (∀ u, element ts u = element ts0 u) →
  (∀ m, would_become_legal ts [Some c] m = would_become_legal ts0 [Some c] m) →
  ∀ u, u ∈ (foldl (affected_neighbors_step c) (ts, res) l).2 ↔
       u ∈ res ∨ (u ∈ l ∧ would_become_legal ts0 [Some c] u = true).
Proof.
  induction l as [|n l IH]; intros ts res He Hw u.
  - simpl. rewrite elem_of_nil. tauto.
  - cbn [foldl]. rewrite affected_neighbors_step_probe.
    destruct (probe_spec ts [Some c] n) as (Hb & He1 & Hw1); [done|].
    rewrite IH; [|intros; by rewrite He1|intros; by rewrite Hw1].
    rewrite Hb, Hw, elem_of_cons.
    destruct (would_become_legal ts0 [Some c] n) eqn:Hn.
    + rewrite elem_of_app, list_elem_of_singleton.
      split; [intros [[?| ->]|?]|intros [?|[[-> |?] ?]]]; tauto.
    + split; [intros [?|?]|intros [?|[[-> |?] ?]]]; try tauto. congruence.
Qed.

Lemma affected_tiles_fold rm ts0 (l : list nat) : rm ≠ [] → ∀ ts (acc : gset nat),
  (∀ u, element ts u = element ts0 u) →
  (∀ m, would_become_legal ts rm m = would_become_legal ts0 rm m) →
  ∀ u, u ∈ (foldl (affected_tiles_step rm) (ts, acc) l).2 ↔
       u ∈ acc ∨ (u ∈ l ∧ element ts0 u ≠ None ∧
                  would_become_legal ts0 rm u = true).
Proof.
  intros Hrm. induction l as [|n l IH]; intros ts acc He Hw u.
  - simpl. rewrite elem_of_nil. tauto.
  - cbn [foldl]. rewrite affected_tiles_step_probe, He, elem_of_cons.
    destruct (element ts0 n) as [e|] eqn:Hen.
    + destruct (probe_spec ts rm n Hrm) as (Hb & He1 & Hw1).
      rewrite IH; [|intros; by rewrite He1|intros; by rewrite Hw1].
      rewrite Hb, Hw.
      destruct (would_become_legal ts0 rm n) eqn:Hn.
      * rewrite elem_of_union, elem_of_singleton.
        split; [intros [[?| ->]|?]|intros [?|[[-> |?] ?]]]; try tauto.
        right. split; [by left|]. by rewrite Hen.
      * split; [intros [?|?]|intros [?|[[-> |?] [? ?]]]]; try tauto; congruence.
    + rewrite IH by done.
      split; [intros [?|?]|intros [?|[[-> |?] [? ?]]]]; try tauto; congruence.
Qed.

Lemma all_neighbors_single ts c :
  element ts c ≠ None →
  all_neighbors ts (filter (λ tile, Is_true (is_nonempty ts tile)) [Some c]) []
    = list_to_set (real_neighbors ts c).
Proof.
  intros Hc. unfold all_neighbors.
  rewrite filter_cons_True by (simpl; by apply bool_decide_pack).
  rewrite filter_nil. simpl. set_solver.
Qed.

(** C5: for a single nonempty cell [c], [affected_tiles({c})] returns, as a
    set, the tiles of [affected_neighbors(c)], in whatever order the
    candidate set is iterated. *)
Theorem affected_tiles_single ts c :
  element ts c ≠ None →
  (affected_tiles ts [Some c]).2 = list_to_set (affected_neighbors ts c).2 ∧
  ∀ candidates,
    candidates ≡ₚ elements (all_neighbors ts
                  (filter (λ tile, Is_true (is_nonempty ts tile)) [Some c]) []) →
    (affected_tiles_over ts [Some c] candidates).2 =
      list_to_set (affected_neighbors ts c).2.
Proof.
  intros Hc.
  assert (Hgen : ∀ candidates,
    candidates ≡ₚ elements (all_neighbors ts
                  (filter (λ tile, Is_true (is_nonempty ts tile)) [Some c]) []) →
    (affected_tiles_over ts [Some c] candidates).2 =
      list_to_set (affected_neighbors ts c).2).
  { intros candidates Hperm. apply set_eq. intros u.
    unfold affected_tiles_over, affected_neighbors.
    rewrite elem_of_list_to_set.
    rewrite (affected_tiles_fold [Some c] ts) by done.
    rewrite (affected_neighbors_fold c ts) by done.
    rewrite Hperm, elem_of_elements, (all_neighbors_single ts c Hc).
    rewrite elem_of_list_to_set.
    unfold nonempty_neighbors. rewrite list_elem_of_filter.
    rewrite elem_of_nil. set_solver. }
  split; [|done]. unfold affected_tiles. by apply Hgen.
Qed.

Lemma affected_tiles_single_witness :
  ∃ ts, ring_full_board = Some ts ∧
    (affected_tiles ts [Some 0%nat]).2 = list_to_set (affected_neighbors ts 0).2.
Proof.
  destruct ring_full_board_corner as (ts & Hboard & Hel).
  exists ts. split; [exact Hboard|].
  exact (proj1 (affected_tiles_single ts 0 Hel)).
Defined.

(** * Further properties of the code *)

(** ** What [predict_legality] predicts *)

Lemma passable_without_slot ts removed nb :
  passable_without ts removed nb = (slot_pair (slot_of ts removed nb)).2.
Proof.
  unfold passable_without, slot_of. destruct nb as [n|]; [|done].
  destruct (element ts n) as [e|].
  - rewrite bool_decide_eq_false_2 by done. simpl.
    destruct (decide (Some n ∈ removed)).
    + by rewrite bool_decide_eq_true_2.
    + by rewrite bool_decide_eq_false_2.
  - by rewrite bool_decide_eq_true_2.
Qed.

Lemma predicted_spec_slots ts removed t :
  predicted_spec ts removed t =
    has_run REQUIRED_ADJACENT (snd ∘ slot_pair <$> (slot_of ts removed <$> ring ts t)).
Proof.
  unfold predicted_spec. rewrite <- list_fmap_compose.
  apply has_run_ext. intros nb _. apply passable_without_slot.
Qed.

Lemma passable_passable_without ts removed nb :
  passable ts nb = true → passable_without ts removed nb = true.
Proof.
  destruct nb as [n|]; [|done]. simpl. intros ->. done.
Qed.

Lemma passable_without_nil ts nb :
  passable_without ts [] nb = passable ts nb.
Proof.
  destruct nb as [n|]; [|done]. unfold passable_without, passable.
  rewrite (bool_decide_eq_false_2 (Some n ∈ [])) by apply not_elem_of_nil.
  apply orb_false_r.
Qed.

(** A legal tile is predicted legal under every removal. *)
Lemma legal_spec_predicted ts removed t :
  legal_spec ts t = true → predicted_spec ts removed t = true.
Proof.
  apply has_run_mono. intros nb _. apply passable_passable_without.
Qed.

Lemma predicted_spec_nil ts t : predicted_spec ts [] t = legal_spec ts t.
Proof. apply has_run_ext. intros nb _. apply passable_without_nil. Qed.

Lemma predict_scan_predicted ts t self removed :
  static_ok ts → tiles ts !! t = Some self →
  match scan (_gen ts removed (neighbors self)) 0 0 false with
  | inr _ => legal_spec ts t = true
  | inl r => legal_spec ts t = false ∧ r = predicted_spec ts removed t
  end.
Proof.
  intros Hst Ht.
  assert (Hlen : length (slot_of ts removed <$> neighbors self) = 6%nat).
  { rewrite length_fmap, <- (ring_valid _ _ _ Ht).
    apply static_ring_length; [done|]. by eapply lookup_lt_Some. }
  pose proof (scan_slots _ Hlen) as Hscan.
  rewrite gen_slots.
  rewrite (legal_spec_slots ts removed t), (predicted_spec_slots ts removed t).
  rewrite (ring_valid _ _ _ Ht).
  by destruct (scan _ _ _ _) as [r|[]].
Qed.

Lemma predict_returns_predicted ts t self removed :
  static_ok ts → tiles ts !! t = Some self →
  (∀ b, _legal self = Some b → b = legal_spec ts t) →
  (predict ts self removed).2 = predicted_spec ts (removed_set removed) t.
Proof.
  intros Hst Ht Hsound.
  pose proof (predict_scan_predicted ts t self (removed_set removed) Hst Ht) as Hscan.
  unfold predict.
  destruct (_legal self) as [[|]|] eqn:Hc.
  - simpl. symmetry. apply legal_spec_predicted. by rewrite <- (Hsound true).
  - destruct (not_removed removed) eqn:Hnr; simpl.
    + rewrite (not_removed_set _ Hnr), predicted_spec_nil.
      by apply Hsound.
    + destruct (scan _ _ _ _) as [r|[]]; simpl; [by destruct Hscan|].
      symmetry. by apply legal_spec_predicted.
  - rewrite andb_false_r.
    destruct (scan _ _ _ _) as [r|[]]; simpl; [by destruct Hscan|].
    symmetry. by apply legal_spec_predicted.
Qed.

Lemma predict_legality_returns_predicted ts t removed :
  board_inv ts →
  (predict_legality ts t removed).2 = predicted_spec ts (removed_set removed) t.
Proof.
  intros (Hst & Hsound & _).
  destruct (tiles ts !! t) as [self|] eqn:Ht.
  - rewrite (predict_legality_tiles _ _ _ _ Ht). simpl.
    apply predict_returns_predicted; [done..|].
    intros b Hb. apply Hsound. unfold legal_cache. by rewrite Ht.
  - unfold predict_legality, predicted_spec, ring. by rewrite Ht.
Qed.

(** X: on a reachable board, [predict_legality(removed)] returns the
    legality recomputed with the tiles of [removed] taken as empty: whether
    the ring has a circular run of at least K slots that are off the
    board, empty, or in [removed]. *)
Theorem predict_legality_is_prediction radius ts t removed :
  reachable radius ts →
  (predict_legality ts t removed).2 = predicted_spec ts (removed_set removed) t.
Proof. intros Hinv%reachable_inv. by apply predict_legality_returns_predicted. Qed.

Lemma predict_legality_is_prediction_witness :
  ∃ ts, ring_full_board = Some ts ∧
    (predict_legality ts 3 (Some [Some 2; Some 0; Some 1]%nat)).2 =
      predicted_spec ts [Some 2; Some 0; Some 1]%nat 3.
Proof.
  destruct ring_full_board_is_Some as [ts Hboard].
  exists ts. split; [exact Hboard|].
  apply (predict_legality_is_prediction 2 ts 3 (Some [Some 2; Some 0; Some 1]%nat)).
  by apply reachable_ring_full_board.
Defined.

(** ** Predictions come true *)

Lemma set_tile_element_elements ts t value :
  board_inv ts → (t < length (tiles ts))%nat →
  ∃ ts', set_tile_element ts t value = Some ts' ∧ board_inv ts' ∧
    (∀ u, element ts' u = if decide (u = t) then value else element ts u) ∧
    (∀ u, ring ts' u = ring ts u) ∧
    rows ts' = rows ts ∧ length (tiles ts') = length (tiles ts).
Proof.
  intros Hinv Ht. pose proof Hinv as (Hst & Hsound & Hcat).
  destruct (lookup_lt_is_Some_2 _ _ Ht) as [self Hself].
  destruct (decide (value = _element self)) as [Heq|Hne].
  - exists ts. unfold set_tile_element. rewrite Hself, decide_True by done.
    do 2 (split; [done|]). split; [|done].
    intros u. destruct (decide (u = t)) as [->|]; [|done].
    unfold element. by rewrite Hself.
  - destruct (set_tile_element_spec ts t self value Hself Hne Hcat)
      as (ts' & Hset & Hrows & Hlen & He & Hring & Hcache & Hget).
    exists ts'. split; [done|]. split; [|done].
    split; [|split].
    + by eapply static_ok_ext.
    + by eapply set_tile_element_sound.
    + by eapply set_tile_element_catalog.
Qed.

Lemma remove_tiles_spec (l : list nat) : ∀ ts,
  board_inv ts →
  ∃ ts', remove_tiles ts l = Some ts' ∧ board_inv ts' ∧
    (∀ u, element ts' u = if decide (u ∈ l) then None else element ts u) ∧
    (∀ u, ring ts' u = ring ts u).
Proof.
  unfold remove_tiles, set_elements.
  induction l as [|t l IH]; intros ts Hinv.
  - exists ts. do 2 (split; [done|]). split; [|done].
    intros u. by rewrite decide_False by apply not_elem_of_nil.
  - rewrite fmap_cons, foldM_cons. simpl.
    assert (∃ ts1, set_tile_element ts t None = Some ts1 ∧ board_inv ts1 ∧
              (∀ u, element ts1 u = if decide (u = t) then None else element ts u) ∧
              (∀ u, ring ts1 u = ring ts u)) as (ts1 & -> & Hinv1 & He1 & Hr1).
    { destruct (decide (t < length (tiles ts))%nat) as [Hlt|Hge].
      - destruct (set_tile_element_elements ts t None Hinv Hlt)
          as (ts1 & ? & ? & ? & ? & _). by exists ts1.
      - exists ts. unfold set_tile_element.
        rewrite (lookup_ge_None_2 (tiles ts) t) by lia.
        do 2 (split; [done|]). split; [|done].
        intros u. destruct (decide (u = t)) as [->|]; [|done].
        unfold element. by rewrite (lookup_ge_None_2 (tiles ts) t) by lia. }
    simpl. destruct (IH ts1 Hinv1) as (ts' & -> & Hinv' & He' & Hr').
    exists ts'. do 2 (split; [done|]). split.
    + intros u. rewrite He', He1.
      destruct (decide (u ∈ l)) as [Hin|Hnin].
      * by rewrite decide_True by by apply list_elem_of_further.
      * destruct (decide (u = t)) as [->|Hne].
        -- by rewrite decide_True by apply list_elem_of_here.
        -- rewrite decide_False; [done|]. rewrite elem_of_cons. tauto.
    + intros u. by rewrite Hr', Hr1.
Qed.

(** X: what [predict_legality] answers for a set of tiles is what [legal]
    answers once those tiles are really emptied: on a reachable board,
    emptying the tiles of [l] through the setter succeeds, and on the
    resulting board [legal] of every tile equals the earlier prediction
    with [l] as [removed]. *)
Theorem prediction_comes_true radius ts (l : list nat) :
  reachable radius ts →
  ∃ ts', remove_tiles ts l = Some ts' ∧
    ∀ t, (legal ts' t).2 = (predict_legality ts t (Some (Some <$> l))).2.
Proof.
  intros Hinv%reachable_inv.
  destruct (remove_tiles_spec l ts Hinv) as (ts' & Hrm & Hinv' & He & Hr).
  exists ts'. split; [done|]. intros t.
  rewrite (legal_returns_spec ts' t Hinv').
  rewrite (predict_legality_returns_predicted ts t _ Hinv). simpl.
  unfold legal_spec, predicted_spec. rewrite Hr.
  apply has_run_ext. intros [n|] _; [|done].
  unfold passable, passable_without. rewrite He.
  destruct (decide (n ∈ l)) as [Hin|Hnin].
  - rewrite (bool_decide_eq_true_2 (Some n ∈ Some <$> l))
      by by apply list_elem_of_fmap_2.
    by rewrite orb_true_r, bool_decide_eq_true_2.
  - rewrite (bool_decide_eq_false_2 (Some n ∈ Some <$> l)).
    + by rewrite orb_false_r.
    + intros (x & [= ->] & Hx)%list_elem_of_fmap. done.
Qed.

Lemma prediction_comes_true_witness :
  ∃ ts ts', ring_full_board = Some ts ∧
    remove_tiles ts [2; 0; 1]%nat = Some ts' ∧
    ∀ t, (legal ts' t).2 =
         (predict_legality ts t (Some (Some <$> [2; 0; 1]%nat))).2.
Proof.
  destruct ring_full_board_is_Some as [ts Hboard].
  destruct (prediction_comes_true 2 ts [2; 0; 1]%nat) as (ts' & Hrm & Hall).
  { by apply reachable_ring_full_board. }
  exists ts, ts'. split; [exact Hboard|]. split; [exact Hrm|exact Hall].
Defined.

(** ** What the impact queries return *)

Lemma would_become_legal_spec ts rm u :
  board_inv ts →
  would_become_legal ts rm u = negb (legal_spec ts u) && predicted_spec ts rm u.
Proof.
  intros (Hst & Hsound & _). unfold would_become_legal.
  destruct (tiles ts !! u) as [self|] eqn:Hu.
  - pose proof (predict_scan_predicted ts u self rm Hst Hu) as Hscan.
    destruct (decide (_legal self = Some true)) as [Hc|Hc].
    + rewrite bool_decide_eq_true_2 by done. simpl.
      rewrite <- (Hsound u true); [done|]. unfold legal_cache. by rewrite Hu.
    + rewrite bool_decide_eq_false_2 by done. simpl.
      destruct (scan _ _ _ _) as [r|[]].
      * destruct Hscan as [-> <-]. destruct r; reflexivity.
      * rewrite Hscan. reflexivity.
  - unfold legal_spec, predicted_spec, ring. by rewrite Hu.
Qed.

Lemma affected_neighbors_fold_list c ts0 (l : list nat) : ∀ ts res,
  (∀ u, element ts u = element ts0 u) →
  (∀ m, would_become_legal ts [Some c] m = would_become_legal ts0 [Some c] m) →
  (foldl (affected_neighbors_step c) (ts, res) l).2 =
    res ++ filter (λ n, would_become_legal ts0 [Some c] n = true) l.
Proof.
  induction l as [|n l IH]; intros ts res He Hw.
  - simpl. by rewrite filter_nil, app_nil_r.
  - cbn [foldl]. rewrite affected_neighbors_step_probe.
    destruct (probe_spec ts [Some c] n) as (Hb & He1 & Hw1); [done|].
    rewrite IH; [|intros; by rewrite He1|intros; by rewrite Hw1].
    rewrite Hb, Hw.
    destruct (would_become_legal ts0 [Some c] n) eqn:Hn.
    + rewrite filter_cons_True by done. by rewrite <- app_assoc.
    + rewrite filter_cons_False; [done|]. by rewrite Hn.
Qed.

(** X: on a reachable board, [affected_neighbors(c)] returns, in ring
    order, exactly the nonempty real neighbors of [c] that are not legal
    now and are legal once [c] is taken as empty. *)
Theorem affected_neighbors_spec radius ts c :
  reachable radius ts →
  (affected_neighbors ts c).2 =
    filter (λ n, legal_spec ts n = false ∧ predicted_spec ts [Some c] n = true)
           (nonempty_neighbors ts c).
Proof.
  intros Hinv%reachable_inv. unfold affected_neighbors.
  rewrite (affected_neighbors_fold_list c ts) by done. simpl.
  apply list_filter_iff. intros n.
  rewrite (would_become_legal_spec ts _ n Hinv).
  destruct (legal_spec ts n), (predicted_spec ts [Some c] n); naive_solver.
Qed.

Lemma affected_neighbors_spec_witness :
  ∃ ts, ring_full_board = Some ts ∧
    (affected_neighbors ts 0).2 =
      filter (λ n, legal_spec ts n = false ∧ predicted_spec ts [Some 0%nat] n = true)
             (nonempty_neighbors ts 0).
Proof.
  destruct ring_full_board_is_Some as [ts Hboard].
  exists ts. split; [exact Hboard|].
  apply (affected_neighbors_spec 2). by apply reachable_ring_full_board.
Defined.

Lemma all_neighbors_fold ts (l : list (option nat)) : ∀ (acc : gset nat) u,
  u ∈ foldl (λ (acc : gset nat) tile,
               match tile with
               | None => acc
               | Some t => acc ∪ list_to_set (real_neighbors ts t)
               end) acc l
  ↔ u ∈ acc ∨ ∃ t, Some t ∈ l ∧ u ∈ real_neighbors ts t.
Proof.
  induction l as [|[t|] l IH]; intros acc u; simpl.
  - split; [by left|]. intros [?|(t & Ht & _)]; [done|].
    by apply elem_of_nil in Ht.
  - rewrite IH, elem_of_union, elem_of_list_to_set. split.
    + intros [[?|?]|(t' & ? & ?)]; [by left|right..].
      * exists t. split; [apply list_elem_of_here|done].
      * exists t'. split; [by apply list_elem_of_further|done].
    + intros [?|(t' & [[= ->]|?]%elem_of_cons & ?)].
      * by left; left.
      * by left; right.
      * right. by exists t'.
  - rewrite IH. split.
    + intros [?|(t' & ? & ?)]; [by left|right].
      exists t'. split; [by apply list_elem_of_further|done].
    + intros [?|(t' & [?|?]%elem_of_cons & ?)]; [by left|done|right].
      by exists t'.
Qed.

(** X: [all_neighbors(tiles)] for a container [tiles] is the set of the
    real neighbors of the tiles of [tiles], without the tiles of [tiles]
    themselves; a [None] member contributes nothing. *)
Theorem all_neighbors_container ts (tiles : list (option nat)) u :
  u ∈ all_neighbors ts tiles tiles ↔
    (∃ t, Some t ∈ tiles ∧ u ∈ real_neighbors ts t) ∧ Some u ∉ tiles.
Proof.
  unfold all_neighbors.
  rewrite elem_of_difference, all_neighbors_fold, elem_of_list_to_set.
  rewrite list_elem_of_omap. split.
  - intros [[?|?] Hnot]; [set_solver|]. split; [done|].
    intros Hu. apply Hnot. by exists (Some u).
  - intros [? Hnot]. split; [by right|].
    intros (x & Hx & Hid). simpl in Hid. by subst x.
Qed.

(** X: on a reachable board, [affected_tiles(tiles)] returns exactly the
    nonempty tiles that are a real neighbor of a nonempty tile of [tiles],
    are not legal now, and are legal once the tiles of [tiles] are taken
    as empty.  Members of [tiles] are not left out: [all_neighbors] is
    handed a generator, which its [difference_update] finds exhausted. *)
Theorem affected_tiles_spec radius ts (tiles : list (option nat)) u :
  reachable radius ts →
  u ∈ (affected_tiles ts tiles).2 ↔
    (∃ t, Some t ∈ tiles ∧ element ts t ≠ None ∧ u ∈ real_neighbors ts t) ∧
    element ts u ≠ None ∧
    legal_spec ts u = false ∧ predicted_spec ts tiles u = true.
Proof.
  intros Hinv%reachable_inv. unfold affected_tiles.
  assert (Hcand : u ∈ elements (all_neighbors ts
             (filter (λ tile, Is_true (is_nonempty ts tile)) tiles) []) ↔
           ∃ t, Some t ∈ tiles ∧ element ts t ≠ None ∧ u ∈ real_neighbors ts t).
  { rewrite elem_of_elements. unfold all_neighbors.
    rewrite elem_of_difference, all_neighbors_fold. simpl. split.
    - intros [[?|(t & Ht & Hu)] _]; [set_solver|].
      apply list_elem_of_filter in Ht as [Hne Ht]. exists t.
      split; [done|]. split; [|done].
      simpl in Hne. by apply bool_decide_unpack in Hne.
    - intros (t & Ht & Hne & Hu). split; [|set_solver]. right. exists t.
      split; [|done]. apply list_elem_of_filter. split; [|done].
      simpl. by apply bool_decide_pack. }
  destruct tiles as [|tile tiles].
  - rewrite filter_nil. unfold all_neighbors. simpl.
    rewrite difference_diag_L, elements_empty. unfold affected_tiles_over. simpl.
    split; [set_solver|]. intros [(t & Ht & _) _]. by apply elem_of_nil in Ht.
  - unfold affected_tiles_over.
    rewrite (affected_tiles_fold (tile :: tiles) ts) by done.
    rewrite Hcand, (would_become_legal_spec ts _ u Hinv).
    destruct (legal_spec ts u), (predicted_spec ts (tile :: tiles) u);
      simpl; set_solver.
Qed.

Lemma affected_tiles_spec_witness :
  ∃ ts, ring_full_board = Some ts ∧
    (3%nat ∈ (affected_tiles ts [Some 2; Some 0; Some 1]%nat).2 ↔
      (∃ t, Some t ∈ [Some 2; Some 0; Some 1]%nat ∧ element ts t ≠ None ∧
            3%nat ∈ real_neighbors ts t) ∧
      element ts 3 ≠ None ∧
      legal_spec ts 3 = false ∧
      predicted_spec ts [Some 2; Some 0; Some 1]%nat 3 = true).
Proof.
  destruct ring_full_board_is_Some as [ts Hboard].
  exists ts. split; [exact Hboard|].
  apply (affected_tiles_spec 2). by apply reachable_ring_full_board.
Defined.

(** ** Legality is monotone in the elements *)

Lemma ring_full_board_remove_corner :
  ∃ ts ts', ring_full_board = Some ts ∧ set_tile_element ts 0 None = Some ts'.
Proof. do 2 eexists. split; vm_compute; reflexivity. Qed.

(** X: one element change moves legality one way only.  On a reachable
    board, emptying a tile leaves every legal tile legal; giving a token to
    an empty tile leaves every illegal tile illegal; replacing a token by
    another token changes the legality of no tile. *)
Theorem legality_monotone radius ts t value ts' u :
  reachable radius ts → set_tile_element ts t value = Some ts' →
  (value = None → (legal ts u).2 = true → (legal ts' u).2 = true) ∧
  (element ts t = None → (legal ts u).2 = false → (legal ts' u).2 = false) ∧
  (element ts t ≠ None → value ≠ None → (legal ts' u).2 = (legal ts u).2).
Proof.
  intros Hinv%reachable_inv Hset.
  destruct (decide (t < length (tiles ts))%nat) as [Hlt|Hge]; cycle 1.
  { unfold set_tile_element in Hset.
    rewrite (lookup_ge_None_2 (tiles ts) t) in Hset by lia.
    injection Hset as <-. split; [done|]. split; [done|].
    intros Hne. exfalso. apply Hne. unfold element.
    by rewrite (lookup_ge_None_2 (tiles ts) t) by lia. }
  destruct (set_tile_element_elements ts t value Hinv Hlt)
    as (ts2 & Hset2 & Hinv' & He & Hr & _).
  rewrite Hset in Hset2. injection Hset2 as <-.
  rewrite (legal_returns_spec ts u Hinv), (legal_returns_spec ts' u Hinv').
  assert (Hpass : ∀ nb, passable ts' nb =
            if decide (nb = Some t) then bool_decide (value = None)
            else passable ts nb).
  { intros nb. by apply passable_after_set. }
  split; [|split].
  - intros ->. apply legal_spec_mono; [done|].
    intros nb _. rewrite Hpass. by case_decide.
  - intros Hempty Hno.
    destruct (legal_spec ts' u) eqn:Hnew; [|done].
    rewrite <- Hno. symmetry. apply (legal_spec_mono ts' ts); [done| |done].
    intros nb _. rewrite Hpass. case_decide; [|done].
    subst nb. intros _. simpl. by rewrite Hempty, bool_decide_eq_true_2.
  - intros Hfull Hvalue. apply legal_spec_passable; [done|].
    intros nb _. rewrite Hpass. case_decide; [|done].
    subst nb. simpl. by rewrite !bool_decide_eq_false_2.
Qed.

Lemma legality_monotone_witness :
  ∃ ts ts', ring_full_board = Some ts ∧ set_tile_element ts 0 None = Some ts' ∧
    ((legal ts 3).2 = true → (legal ts' 3).2 = true).
Proof.
  destruct ring_full_board_remove_corner as (ts & ts' & Hboard & Hset).
  exists ts, ts'. split; [exact Hboard|]. split; [exact Hset|].
  destruct (legality_monotone 2 ts 0 None ts' 3) as (Hlose & _).
  - by apply reachable_ring_full_board.
  - exact Hset.
  - exact (Hlose eq_refl).
Defined.

(** ** Queries change nothing but caches *)

(** X: on a reachable board no query changes an element, the catalog, the
    rows or a ring; the only effect of [predict_legality] (and so of
    [legal]), [affected_neighbors], [affected_tiles] and [legal_tiles] is
    to set some legality caches, each to the true legality of its tile. *)
Theorem queries_only_refresh_caches radius ts :
  reachable radius ts →
  (∀ t removed, cache_update ts (predict_legality ts t removed).1) ∧
  (∀ c, cache_update ts (affected_neighbors ts c).1) ∧
  (∀ tiles, cache_update ts (affected_tiles ts tiles).1) ∧
  cache_update ts (legal_tiles ts).1.
Proof.
  intros (Hst & _)%reachable_inv. split; [|split; [|split]].
  - intros t removed. by apply predict_legality_cache_update.
  - intros c. by apply affected_neighbors_cache_update.
  - intros tiles. unfold affected_tiles. by apply affected_tiles_over_cache_update.
  - by apply legal_tiles_cache_update.
Qed.

Lemma queries_only_refresh_caches_witness :
  ∃ ts, ring_full_board = Some ts ∧ cache_update ts (legal_tiles ts).1.
Proof.
  destruct ring_full_board_is_Some as [ts Hboard].
  exists ts. split; [exact Hboard|].
  apply (queries_only_refresh_caches 2). by apply reachable_ring_full_board.
Defined.

(** ** Counts and representatives *)

Lemma catalog_get_holders ts e :
  catalog_consistent ts →
  catalog_get ts e =
    list_to_set (filter (λ t, element ts t = Some e) (seq 0 (length (tiles ts)))).
Proof.
  intros Hcat. apply set_eq. intros u.
  rewrite elem_of_list_to_set, list_elem_of_filter, elem_of_seq, (Hcat e u).
  split; [|tauto]. intros He. split; [done|]. split; [lia|]. simpl.
  unfold element in He. destruct (tiles ts !! u) eqn:Hu; [|done].
  by eapply lookup_lt_Some.
Qed.

Lemma count_spec_holders radius ts (e : token) :
  reachable radius ts →
  count ts e =
    length (filter (λ t, element ts t = Some e) (seq 0 (length (tiles ts)))).
Proof.
  intros (_ & _ & Hcat)%reachable_inv. unfold count.
  rewrite (catalog_get_holders ts e Hcat).
  apply size_list_to_set, NoDup_filter, NoDup_seq.
Qed.

(** X: on a reachable board, [count(e)] is the number of tiles whose
    element is [e]; for a token no tile ever held, the catalog has no
    entry and the count is 0. *)
Theorem count_spec radius ts (e : token) :
  reachable radius ts →
  count ts e =
    length (filter (λ t, element ts t = Some e) (seq 0 (length (tiles ts)))).
Proof.
  intros Hinv%reachable_inv. unfold count.
  rewrite (catalog_get_holders ts e (proj2 (proj2 Hinv))).
  apply size_list_to_set, NoDup_filter, NoDup_seq.
Qed.

Lemma count_spec_witness :
  ∃ ts, ring_full_board = Some ts ∧
    count ts "A" =
      length (filter (λ t, element ts t = Some "A") (seq 0 (length (tiles ts)))).
Proof.
  destruct ring_full_board_is_Some as [ts Hboard].
  exists ts. split; [exact Hboard|].
  apply (count_spec 2). by apply reachable_ring_full_board.
Defined.

Lemma first_of_member (s : gset nat) :
  s ≠ ∅ → ∃ t, first_of s = Some t ∧ t ∈ s.
Proof.
  intros Hne. unfold first_of.
  destruct (elements s) as [|t l] eqn:Hel.
  - apply elements_empty_inv in Hel. by apply leibniz_equiv in Hel.
  - exists t. split; [done|]. apply elem_of_elements. rewrite Hel.
    apply list_elem_of_here.
Qed.

Lemma mapM_first_of ts (es : list token) :
  (∀ e, e ∈ es → catalog_get ts e ≠ ∅) →
  ∃ l, mapM (λ e, first_of (catalog_get ts e)) es = Some l ∧
       Forall2 (λ e t, t ∈ catalog_get ts e) es l.
Proof.
  induction es as [|e es IH]; intros Hne.
  - exists []. split; [done|]. constructor.
  - destruct (first_of_member (catalog_get ts e)) as (t & Ht & Hin).
    { apply Hne, list_elem_of_here. }
    destruct IH as (l & Hl & Hall).
    { intros e' He'. by apply Hne, list_elem_of_further. }
    exists (t :: l). split; [|by constructor].
    simpl. rewrite Ht. simpl. by rewrite Hl.
Qed.

(** X: on a reachable board, [remaining_metals] never fails, and returns
    one tile for each metal some tile holds, in the order of [METALS],
    each holding its metal. *)
Theorem remaining_metals_spec radius ts :
  reachable radius ts →
  ∃ l, remaining_metals ts = Some l ∧
    Forall2 (λ e t, element ts t = Some e)
            (filter (λ e, catalog_get ts e ≠ ∅) METALS) l ∧
    ∀ e, e ∈ METALS → (∃ t, element ts t = Some e) →
         ∃ t, t ∈ l ∧ element ts t = Some e.
Proof.
  intros (_ & _ & Hcat)%reachable_inv. unfold remaining_metals.
  destruct (mapM_first_of ts (filter (λ e, catalog_get ts e ≠ ∅) METALS))
    as (l & Hl & Hall).
  { by intros e [? _]%list_elem_of_filter. }
  exists l. split; [done|].
  assert (Hholds : Forall2 (λ e t, element ts t = Some e)
            (filter (λ e, catalog_get ts e ≠ ∅) METALS) l).
  { eapply Forall2_impl; [exact Hall|]. intros e t Ht. by apply Hcat. }
  split; [done|].
  intros e He (t & Ht).
  assert (Hin : e ∈ filter (λ e, catalog_get ts e ≠ ∅) METALS).
  { apply list_elem_of_filter. split; [|done].
    apply Hcat in Ht. set_solver. }
  apply list_elem_of_lookup in Hin as [i Hi].
  destruct (Forall2_lookup_l _ _ _ _ _ Hholds Hi) as (t' & Ht' & Hel).
  exists t'. split; [|done]. by eapply list_elem_of_lookup_2.
Qed.

Lemma remaining_metals_spec_witness :
  ∃ ts l, ring_full_board = Some ts ∧ remaining_metals ts = Some l.
Proof.
  destruct ring_full_board_is_Some as [ts Hboard].
  destruct (remaining_metals_spec 2 ts) as (l & Hl & _).
  { by apply reachable_ring_full_board. }
  exists ts, l. split; [exact Hboard|exact Hl].
Defined.

(** ** The bitmap, bit by bit *)

Lemma shiftl_lor_one r : Z.lor (Z.shiftl r 1) 1 = 2 * r + 1.
Proof.
  rewrite Z.shiftl_mul_pow2 by lia. change (2 ^ 1) with 2.
  assert (Hland : Z.land (r * 2) 1 = 0).
  { apply Z.bits_inj'. intros n Hn. rewrite Z.land_spec, Z.bits_0.
    destruct (decide (n = 0)) as [->|].
    - replace (r * 2) with (2 * r + Z.b2z false) by (simpl; lia).
      by rewrite Z.testbit_0_r.
    - replace 1 with (2 * 0 + Z.b2z true) by done.
      replace n with (Z.succ (n - 1)) by lia.
      rewrite (Z.testbit_succ_r 0 true) by lia.
      rewrite Z.bits_0. apply andb_false_r. }
  rewrite <- Z.lxor_lor by done.
  rewrite <- Z.add_nocarry_lxor by done. lia.
Qed.

Lemma bitmap_step r tl :
  (let result := Z.shiftl r 1 in
   if truthy (_element tl) then Z.lor result 1 else result)
  = 2 * r + Z.b2z (occupied_bit tl).
Proof.
  unfold occupied_bit. simpl. destruct (truthy (_element tl)); simpl.
  - apply shiftl_lor_one.
  - rewrite Z.shiftl_mul_pow2 by lia. change (2 ^ 1) with 2. lia.
Qed.

Lemma bitmap_snoc ts tls tl :
  tiles ts = tls ++ [tl] →
  bitmap ts = 2 * bitmap (with_tiles ts tls) + Z.b2z (occupied_bit tl).
Proof.
  intros Htiles. unfold bitmap. simpl. rewrite Htiles, foldl_app. simpl.
  apply bitmap_step.
Qed.

Lemma bitmap_bits_of (tls : list Tile) : ∀ ts,
  tiles ts = tls →
  0 ≤ bitmap ts < 2 ^ Z.of_nat (length tls) ∧
  ∀ i tl, tls !! i = Some tl →
    Z.testbit (bitmap ts) (Z.of_nat (length tls - 1 - i)) = occupied_bit tl.
Proof.
  induction tls as [|tl tls IH] using rev_ind; intros ts Htiles.
  - unfold bitmap. rewrite Htiles. simpl. split; [lia|]. by intros i tl' Hi.
  - rewrite (bitmap_snoc ts tls tl Htiles).
    destruct (IH (with_tiles ts tls) eq_refl) as [Hbound Hbits].
    rewrite length_app. simpl. split.
    + replace (Z.of_nat (length tls + 1)) with (Z.succ (Z.of_nat (length tls))) by lia.
      rewrite Z.pow_succ_r by lia. destruct (occupied_bit tl); simpl; lia.
    + intros i tl' Hi. apply lookup_snoc_Some in Hi as [[Hlt Hi]|[-> <-]].
      * replace (Z.of_nat (length tls + 1 - 1 - i))
          with (Z.succ (Z.of_nat (length tls - 1 - i))) by lia.
        rewrite Z.testbit_succ_r by lia. by apply Hbits.
      * replace (Z.of_nat (length tls + 1 - 1 - length tls)) with 0 by lia.
        apply Z.testbit_0_r.
Qed.

(** X: [bitmap] is a number below 2^n for a board of n tiles, and the bit
    of the i-th tile, counted from the most significant of the n bits, is
    the truth value of the tile's element: 1 for a nonempty string token,
    0 for [None] and for the empty string. *)
Theorem bitmap_bits ts :
  0 ≤ bitmap ts < 2 ^ Z.of_nat (length (tiles ts)) ∧
  ∀ i tl, tiles ts !! i = Some tl →
    Z.testbit (bitmap ts) (Z.of_nat (length (tiles ts) - 1 - i)) =
      truthy (_element tl).
Proof. by apply bitmap_bits_of. Qed.

Lemma bitmap_of_bits (tls1 : list Tile) : ∀ tls2 ts1 ts2,
  tiles ts1 = tls1 → tiles ts2 = tls2 →
  occupied_bit <$> tls1 = occupied_bit <$> tls2 →
  bitmap ts1 = bitmap ts2.
Proof.
  induction tls1 as [|tl1 tls1 IH] using rev_ind; intros tls2 ts1 ts2 H1 H2 Heq.
  - symmetry in Heq. apply fmap_nil_inv in Heq. rewrite Heq in H2.
    unfold bitmap. by rewrite H1, H2.
  - destruct tls2 as [|tl2 tls2 _] using rev_ind.
    { rewrite fmap_app in Heq. by destruct (occupied_bit <$> tls1). }
    rewrite !fmap_app in Heq. simpl in Heq.
    apply app_inj_2 in Heq as [Heq [= Hbit]]; [|done].
    rewrite (bitmap_snoc ts1 tls1 tl1 H1), (bitmap_snoc ts2 tls2 tl2 H2), Hbit.
    by rewrite (IH tls2 (with_tiles ts1 tls1) (with_tiles ts2 tls2) eq_refl eq_refl Heq).
Qed.

(** X: two boards with the same number of tiles have equal bitmaps exactly
    when, tile by tile, their elements have the same truth value. *)
Theorem bitmap_eq_iff ts1 ts2 :
  length (tiles ts1) = length (tiles ts2) →
  bitmap ts1 = bitmap ts2 ↔
    ∀ i, truthy (element ts1 i) = truthy (element ts2 i).
Proof.
  intros Hlen. split.
  - intros Heq i. unfold element.
    destruct (tiles ts1 !! i) as [tl1|] eqn:H1.
    + destruct (lookup_lt_is_Some_2 (tiles ts2) i) as [tl2 H2].
      { rewrite <- Hlen. by eapply lookup_lt_Some. }
      rewrite H2. simpl.
      rewrite <- (proj2 (bitmap_bits ts1) i tl1 H1).
      rewrite <- (proj2 (bitmap_bits ts2) i tl2 H2).
      by rewrite Heq, Hlen.
    + rewrite (lookup_ge_None_2 (tiles ts2) i); [done|].
      rewrite <- Hlen. by apply lookup_ge_None_1.
  - intros Hbits. apply (bitmap_of_bits (tiles ts1) (tiles ts2)); [done..|].
    apply list_eq. intros i. rewrite !list_lookup_fmap.
    specialize (Hbits i). unfold element in Hbits.
    destruct (tiles ts1 !! i) as [tl1|] eqn:H1.
    + destruct (lookup_lt_is_Some_2 (tiles ts2) i) as [tl2 H2].
      { rewrite <- Hlen. by eapply lookup_lt_Some. }
      rewrite H2 in Hbits |- *. simpl in Hbits |- *. unfold occupied_bit. by rewrite Hbits.
    + rewrite (lookup_ge_None_2 (tiles ts2) i); [done|].
      rewrite <- Hlen. by apply lookup_ge_None_1.
Qed.

Lemma bitmap_eq_iff_witness :
  ∃ ts ts', Tileset_init 1 = Some ts ∧
    set_tile_element ts 0 (Some "gold") = Some ts' ∧
    (bitmap ts = bitmap ts' ↔
       ∀ i, truthy (element ts i) = truthy (element ts' i)).
Proof.
  do 2 eexists. split; [vm_compute; reflexivity|].
  split; [vm_compute; reflexivity|].
  apply bitmap_eq_iff. vm_compute. reflexivity.
Defined.

(** ** The shape of a constructed board *)

(** X: the constructor never raises, whatever the radius: no index of the
    row fill or of the adjacency pass is out of range. *)
Theorem Tileset_init_total radius : ∃ ts, Tileset_init radius = Some ts.
Proof.
  destruct (decide (1 ≤ radius)) as [Hr|Hr].
  - destruct (Tileset_init_ok radius Hr) as (ts & Hinit & _). by exists ts.
  - unfold Tileset_init. rewrite range_empty by lia. simpl.
    rewrite decide_True by lia. by eexists.
Qed.

Lemma ring_at_lookup rws y x i v :
  ring_at rws y x !! i = Some v →
  (i < 6)%nat ∧
  v = look rws (y + (slot_offset (altrow y) i).1) (x + (slot_offset (altrow y) i).2).
Proof.
  unfold ring_at. intros Hi.
  do 6 (destruct i as [|i];
        [injection Hi as <-; split; [lia|]; simpl; f_equal; lia|]).
  done.
Qed.

Lemma slot_offset_inj a i j :
  (i < 6)%nat → (j < 6)%nat → slot_offset a i = slot_offset a j → i = j.
Proof.
  intros Hi Hj.
  do 6 (destruct i as [|i]; [do 6 (destruct j as [|j]; [simpl; intros [= ]; (done || lia)|]); lia|]).
  lia.
Qed.

Lemma static_ring_distinct ts t i j n :
  static_ok ts →
  ring ts t !! i = Some (Some n) → ring ts t !! j = Some (Some n) → i = j.
Proof.
  intros (d & Hg & Hring) (tl & Htl & Hi)%ring_lookup_valid Hj.
  rewrite (ring_valid _ _ _ Htl) in Hj.
  destruct (Hring t tl Htl) as (y & x & _ & Hns). rewrite Hns in Hi, Hj.
  apply ring_at_lookup in Hi as [Hi6 Hi], Hj as [Hj6 Hj].
  symmetry in Hi, Hj.
  destruct (grid_look_inj _ _ _ _ _ _ _ _ Hg Hi Hj) as [Hy Hx].
  apply (slot_offset_inj (altrow y)); [done..|].
  destruct (slot_offset (altrow y) i), (slot_offset (altrow y) j).
  simpl in *. f_equal; lia.
Qed.

(** X: on every reachable board, the ring of a tile has exactly six slots;
    a slot is [None] or holds a tile of the board other than the tile
    itself; and no tile occupies two slots of one ring. *)
Theorem ring_shape radius ts t :
  reachable radius ts → (t < length (tiles ts))%nat →
  length (ring ts t) = 6%nat ∧
  (∀ i n, ring ts t !! i = Some (Some n) →
     (n < length (tiles ts))%nat ∧ n ≠ t) ∧
  (∀ i j n, ring ts t !! i = Some (Some n) → ring ts t !! j = Some (Some n) →
     i = j).
Proof.
  intros (Hst & _)%reachable_inv Ht. split; [|split].
  - by apply static_ring_length.
  - intros i n Hi. split; [by eapply static_ring_handles|].
    intros ->. apply (static_no_self_loop ts t Hst).
    by eapply list_elem_of_lookup_2.
  - intros i j n. by apply static_ring_distinct.
Qed.

Lemma ring_full_board_size :
  ∃ ts, ring_full_board = Some ts ∧ length (tiles ts) = 7%nat.
Proof. eexists. split; vm_compute; reflexivity. Qed.

Lemma ring_shape_witness :
  ∃ ts, ring_full_board = Some ts ∧ length (ring ts 3) = 6%nat.
Proof.
  destruct ring_full_board_size as (ts & Hboard & Hsize).
  exists ts. split; [exact Hboard|].
  apply (ring_shape 2 ts 3).
  - by apply reachable_ring_full_board.
  - rewrite Hsize. lia.
Defined.

Lemma fill_row_length hoffset y (l : list Z) : ∀ tls row tls' row',
  foldM (fill_cell hoffset y) (tls, row) l = Some (tls', row') →
  length tls' = (length tls + length l)%nat.
Proof.
  induction l as [|x l IH]; intros tls row tls' row' H.
  - injection H as <- <-. simpl. lia.
  - rewrite foldM_cons in H.
    apply bind_Some in H as ([tls1 row1] & Hstep & H).
    unfold fill_cell in Hstep.
    apply bind_Some in Hstep as (row2 & _ & [= <- <-]).
    apply IH in H. rewrite H, length_app. simpl. lia.
Qed.

Lemma range_length a b : length (Py.range a b) = Z.to_nat (b - a).
Proof. unfold Py.range. by rewrite length_fmap, length_seq. Qed.

Lemma build_row_length radius y rws tls rws' tls' :
  build_row radius (rws, tls) y = Some (rws', tls') →
  length tls' = (length tls + Z.to_nat (row_count radius y))%nat.
Proof.
  unfold build_row. intros H.
  destruct (foldM _ _ _) as [[tls1 row1]|] eqn:Hfill; [|done].
  simpl in H. injection H as <- <-.
  apply fill_row_length in Hfill. rewrite Hfill, range_length.
  unfold row_count. f_equal. f_equal. lia.
Qed.

Lemma build_rows_length radius (j : nat) : ∀ (k : nat) rws tls rws' tls',
  1 ≤ radius → Z.of_nat k + Z.of_nat j ≤ 2 * radius - 1 →
  foldM (build_row radius) (rws, tls)
        (Py.range (Z.of_nat k) (Z.of_nat k + Z.of_nat j)) = Some (rws', tls') →
  Z.of_nat (length tls') =
    Z.of_nat (length tls) + (taper_sum radius (k + j) - taper_sum radius k).
Proof.
  induction j as [|j IH]; intros k rws tls rws' tls' Hr Hkj H.
  - rewrite range_empty in H by lia. injection H as <- <-.
    replace (k + 0)%nat with k by lia. lia.
  - rewrite range_cons, foldM_cons in H.
    destruct (build_row radius (rws, tls) (Z.of_nat k)) as [[rws1 tls1]|] eqn:Hrow;
      [|done].
    simpl in H. apply build_row_length in Hrow.
    replace (Z.of_nat k + 1) with (Z.of_nat (S k)) in H by lia.
    apply IH in H; [|done|lia].
    replace (k + S j)%nat with (S k + j)%nat by lia.
    rewrite H, Hrow. simpl taper_sum at 2.
    destruct (taper_bounds radius (Z.of_nat k)) as (_ & Hcount & _); [lia..|].
    fold (row_count radius (Z.of_nat k)) in Hcount. lia.
Qed.

Lemma taper_sum_closed radius (k : nat) :
  1 ≤ radius → Z.of_nat k ≤ 2 * radius - 1 →
  2 * taper_sum radius k =
    if decide (Z.of_nat k ≤ radius)
    then 2 * Z.of_nat k * radius + Z.of_nat k * (Z.of_nat k - 1)
    else 3 * radius * radius - radius
         + 2 * (Z.of_nat k - radius) * (2 * radius - 2)
         - (Z.of_nat k - radius) * (Z.of_nat k - radius - 1).
Proof.
  intros Hr. induction k as [|k IH]; intros Hk.
  - simpl. rewrite decide_True by lia. lia.
  - simpl taper_sum. specialize (IH ltac:(lia)). unfold row_count.
    destruct (decide (Z.of_nat (S k) ≤ radius)) as [Hle|Hgt].
    + rewrite decide_True in IH by lia. nia.
    + destruct (decide (Z.of_nat k ≤ radius)) as [Hle'|Hgt'].
      * assert (Z.of_nat k = radius) as Heq by lia. nia.
      * nia.
Qed.

(** X: for a radius r >= 1 the constructed board has 3r(r-1)+1 tiles (the
    centered hexagonal number), in a grid of 2r+1 rows of 2r+1 cells whose
    first and last row and column hold no tile. *)
Theorem Tileset_init_shape radius ts :
  1 ≤ radius → Tileset_init radius = Some ts →
  Z.of_nat (length (tiles ts)) = 3 * radius * (radius - 1) + 1 ∧
  Z.of_nat (length (rows ts)) = 2 * radius + 1 ∧
  (∀ Y row, rows ts !! Y = Some row → Z.of_nat (length row) = 2 * radius + 1) ∧
  (∀ y x c, look (rows ts) y x = Some c →
     1 ≤ y ≤ 2 * radius - 1 ∧ 1 ≤ x ≤ 2 * radius - 1 ∧
     (c < length (tiles ts))%nat).
Proof.
  intros Hr Hinit. unfold Tileset_init in Hinit.
  set (d := 2 * radius - 1) in *.
  destruct (build_rows_ok radius (Z.to_nat d) 0 [Py.repeat None (d + 2)] [])
    as (rws & tls & Hbuild & Hlen & Hgrid & Hfresh);
    [lia|lia|done|apply grid_ok_blank|done|].
  pose proof (build_rows_length radius (Z.to_nat d) 0 _ _ _ _ Hr ltac:(lia) Hbuild)
    as Hcount.
  replace (Z.of_nat 0 + Z.of_nat (Z.to_nat d)) with d in Hbuild by lia.
  change (Z.of_nat 0) with 0 in Hbuild. rewrite Hbuild in Hinit.
  apply grid_ok_snoc_blank in Hgrid. fold d in Hgrid.
  destruct (wire_ok d (length tls) (rws ++ [Py.repeat None (d + 2)]) tls)
    as (tls' & Hwire & Hlen' & _); [done|rewrite length_app; simpl; lia|].
  cbn [mbind option_bind] in Hinit. rewrite Hwire in Hinit.
  injection Hinit as <-. simpl.
  split; [|split; [|split]].
  - rewrite Hlen', Hcount. simpl.
    pose proof (taper_sum_closed radius (Z.to_nat d) Hr ltac:(lia)) as Hsum.
    replace (Z.of_nat (Z.to_nat d)) with d in Hsum by lia.
    destruct (decide (d ≤ radius)); subst d; nia.
  - rewrite length_app, Hlen. simpl. lia.
  - intros Y row HY. rewrite (grid_width _ _ _ Hgrid Y row HY). lia.
  - intros y x c Hc. rewrite Hlen'.
    destruct (grid_look_ids _ _ _ _ _ _ Hgrid Hc) as (? & ? & ?). done.
Qed.

Lemma Tileset_init_shape_witness :
  ∃ ts, Tileset_init 2 = Some ts ∧ Z.of_nat (length (tiles ts)) = 7.
Proof.
  destruct (Tileset_init_total 2) as [ts Hinit].
  exists ts. split; [exact Hinit|].
  apply (Tileset_init_shape 2 ts); [lia|exact Hinit].
Defined.

(** ** Legality at the extremes *)

Lemma has_run_count (l : list bool) :
  length l = 6%nat →
  (forallb id l = true → has_run REQUIRED_ADJACENT l = true) ∧
  (has_run REQUIRED_ADJACENT l = true → (3 ≤ length (filter (λ b, b = true) l))%nat).
Proof.
  intros Hlen.
  do 6 (destruct l as [|[] l]; [done|..]).
  all: destruct l; [|done].
  all: split; [by vm_compute|].
  all: vm_compute; first [discriminate | intros _; repeat constructor].
Qed.

(** X: on a reachable board, a tile all of whose ring slots are off the
    board or empty reads [legal] = True, and a tile with fewer than three
    such slots reads [legal] = False. *)
Theorem legal_extremes radius ts t :
  reachable radius ts → (t < length (tiles ts))%nat →
  ((∀ nb, nb ∈ ring ts t → passable ts nb = true) → (legal ts t).2 = true) ∧
  ((length (filter (λ nb, passable ts nb = true) (ring ts t)) < 3)%nat →
   (legal ts t).2 = false).
Proof.
  intros Hinv%reachable_inv Ht. rewrite (legal_returns_spec ts t Hinv).
  pose proof (static_ring_length ts t (proj1 Hinv) Ht) as Hlen.
  destruct (has_run_count (passable ts <$> ring ts t)) as [Hall Hfew].
  { by rewrite length_fmap. }
  split.
  - intros Hopen. apply Hall. apply forallb_forall. intros b Hb.
    apply list_elem_of_In, list_elem_of_fmap in Hb as (nb & -> & Hnb).
    by apply Hopen.
  - intros Hlt. destruct (legal_spec ts t) eqn:Hlg; [|done].
    specialize (Hfew Hlg). exfalso.
    assert (length (filter (λ b, b = true) (passable ts <$> ring ts t)) =
            length (filter (λ nb, passable ts nb = true) (ring ts t))) as Heq.
    { clear. induction (ring ts t) as [|nb l IH]; [done|].
      rewrite fmap_cons. destruct (passable ts nb) eqn:Hp.
      - rewrite !filter_cons_True by done. simpl. by rewrite IH.
      - rewrite !filter_cons_False by (by rewrite ?Hp). done. }
    lia.
Qed.

Lemma legal_extremes_witness :
  ∃ ts, ring_full_board = Some ts ∧
    ((length (filter (λ nb, passable ts nb = true) (ring ts 3)) < 3)%nat →
     (legal ts 3).2 = false).
Proof.
  destruct ring_full_board_size as (ts & Hboard & Hsize).
  exists ts. split; [exact Hboard|].
  apply (legal_extremes 2 ts 3).
  - by apply reachable_ring_full_board.
  - rewrite Hsize. lia.
Defined.

(** ** The setter and the notification *)

(** X: setting an element and setting it back restores what a caller can
    observe of the board: on a reachable board, after the two setter calls
    every element, every catalog set and every [legal] answer is what it
    was. *)
Theorem setter_round_trip radius ts t value :
  reachable radius ts → (t < length (tiles ts))%nat →
  ∃ ts1 ts2,
    set_tile_element ts t value = Some ts1 ∧
    set_tile_element ts1 t (element ts t) = Some ts2 ∧
    (∀ u, element ts2 u = element ts u) ∧
    (∀ e, catalog_get ts2 e = catalog_get ts e) ∧
    (∀ u, (legal ts2 u).2 = (legal ts u).2).
Proof.
  intros Hinv%reachable_inv Ht.
  destruct (set_tile_element_elements ts t value Hinv Ht)
    as (ts1 & Hset1 & Hinv1 & He1 & Hr1 & _ & Hlen1).
  destruct (set_tile_element_elements ts1 t (element ts t) Hinv1)
    as (ts2 & Hset2 & Hinv2 & He2 & Hr2 & _ & Hlen2); [lia|].
  exists ts1, ts2. do 2 (split; [done|]).
  assert (Hel : ∀ u, element ts2 u = element ts u).
  { intros u. rewrite He2, He1. by destruct (decide (u = t)) as [->|]. }
  split; [done|]. split.
  - intros e.
    rewrite (catalog_get_holders ts2 e (proj2 (proj2 Hinv2))).
    rewrite (catalog_get_holders ts e (proj2 (proj2 Hinv))).
    rewrite Hlen2, Hlen1. f_equal. apply list_filter_iff.
    intros u. by rewrite Hel.
  - intros u. rewrite (legal_returns_spec ts2 u Hinv2), (legal_returns_spec ts u Hinv).
    apply legal_spec_ext; [done|]. by rewrite Hr2, Hr1.
Qed.

Lemma setter_round_trip_witness :
  ∃ ts ts1 ts2, ring_full_board = Some ts ∧
    set_tile_element ts 0 None = Some ts1 ∧
    set_tile_element ts1 0 (element ts 0) = Some ts2 ∧
    (∀ u, element ts2 u = element ts u).
Proof.
  destruct ring_full_board_size as (ts & Hboard & Hsize).
  destruct (setter_round_trip 2 ts 0 None) as (ts1 & ts2 & H1 & H2 & Hel & _).
  - by apply reachable_ring_full_board.
  - rewrite Hsize. lia.
  - exists ts, ts1, ts2.
    split; [exact Hboard|]. split; [exact H1|]. split; [exact H2|exact Hel].
Defined.

(** X: the notification fails in exactly one case: [previous] is a token,
    differs from [current], and is not a key of the catalog, whose default
    for a missing key is an immutable empty tuple. *)
Theorem element_changed_fails_iff ts tile previous current :
  element_changed ts tile previous current = None ↔
    ∃ p, previous = Some p ∧ previous ≠ current ∧ catalog ts !! p = None.
Proof.
  unfold element_changed. split.
  - destruct (decide (previous = current)) as [|Hne]; [done|].
    destruct previous as [p|]; simpl.
    + unfold catalog_discard. destruct (catalog ts !! p) as [s|] eqn:Hp; simpl.
      * by destruct (decide _).
      * intros _. by exists p.
    + by destruct (decide _).
  - intros (p & -> & Hne & Hp). rewrite decide_False by done.
    unfold catalog_discard. by rewrite Hp.
Qed.

(** X: on a reachable board, [cardinal_counts] has exactly the four
    cardinal elements as keys and maps each to the number of tiles holding
    it. *)
Theorem cardinal_counts_spec radius ts (e : token) (n : nat) :
  reachable radius ts →
  cardinal_counts ts !! e = Some n ↔
    e ∈ CARDINALS ∧
    n = length (filter (λ t, element ts t = Some e) (seq 0 (length (tiles ts)))).
Proof.
  intros Hreach. unfold cardinal_counts.
  rewrite <- elem_of_list_to_map.
  - rewrite list_elem_of_fmap. split.
    + intros (e' & [= -> ->] & He'). split; [done|]. by eapply count_spec_holders.
    + intros [He ->]. exists e. split; [|done]. f_equal.
      symmetry. by eapply count_spec_holders.
  - rewrite <- list_fmap_compose.
    replace (fst ∘ (λ e0 : string, (e0, count ts e0)) <$> CARDINALS) with CARDINALS
      by done.
    apply (bool_decide_unpack _). by vm_compute.
Qed.
